(** * antimaia.py: players, match runner and game saving

    A shallow embedding of [antimaia.py].  Python exceptions are values of
    [PyError]; calls to the external engines (Stockfish, lc0) are recorded
    in a log of [Event]s carried by the monad [M]; Python [dict]s and
    [set]s keyed by FEN strings are [gmap]s and [gset]s; Python floats are
    an abstract number type with the operations the code uses, of which
    binary64 is an instance; the file system is a tree of directories
    and regular files. *)

From Stdlib Require Import ZArith String Ascii List Lia Permutation Sorted.
From stdpp Require Import base option list sets gmap strings pretty.
From Stdlib Require Floats.PrimFloat Floats.SpecFloat Floats.FloatOps.

Set Warnings "-clear-no-such-hyp".

Local Open Scope string_scope.
Local Open Scope Z_scope.
Local Open Scope list_scope.

(** ** Exceptions and results *)

Inductive PyError : Type :=
  | IndexError
  | KeyError
  | ValueError
  | TypeError
  | AttributeError
  | NameError (name : string)
  | FileNotFoundError
  | FileExistsError
  | NotADirectoryError
  | IsADirectoryError.

Inductive Result (A : Type) : Type :=
  | Ok (a : A)
  | Raise (e : PyError).
Arguments Ok {A} a.
Arguments Raise {A} e.

#[global] Instance Result_ret : MRet Result := λ A a, Ok a.
#[global] Instance Result_bind : MBind Result := λ A B f r,
  match r with
  | Ok a => f a
  | Raise e => Raise e
  end.

(** [l[i]] on a Python list. *)
Definition py_index {A} (l : list A) (i : nat) : Result A :=
  match l !! i with
  | Some a => Ok a
  | None => Raise IndexError
  end.

(** [d[k]] on a Python dict. *)
Definition py_getitem {V} (d : gmap string V) (k : string) : Result V :=
  match d !! k with
  | Some v => Ok v
  | None => Raise KeyError
  end.

(** ** Engine calls *)

(** A position travels through the program as its FEN string. *)
Abbreviation Fen := string (only parsing).

Inductive Event : Type :=
  | StockfishEvaluation (fen : Fen)   (* set_fen_position; get_evaluation *)
  | StockfishBestMove (fen : Fen)     (* set_fen_position; get_best_move *)
  | MaiaLaunch (fen : Fen).           (* popen_uci of lc0; analysis of fen *)

#[global] Instance Event_eq_dec : EqDecision Event.
Proof. solve_decision. Defined.

(** A computation returns or raises, and leaves the list of engine calls
    it made, oldest first. *)
Definition M (A : Type) : Type := Result A * list Event.

#[global] Instance M_ret : MRet M := λ A a, (Ok a, []).
#[global] Instance M_bind : MBind M := λ A B f m,
  match m with
  | (Ok a, log) => let '(r, log') := f a in (r, log ++ log')
  | (Raise e, log) => (Raise e, log)
  end.

Definition call (ev : Event) : M unit := (Ok tt, [ev]).
Definition lift {A} (r : Result A) : M A := (r, []).

(** ** Python strings *)

Definition join (sep : string) (parts : list string) : string :=
  match parts with
  | [] => ""
  | p :: ps => foldl (λ acc q, acc +:+ sep +:+ q) p ps
  end.

(** [s.split(sep)] for a non-empty [sep]: [skip] counts the characters of
    a separator just matched that are still to be passed over. *)
Fixpoint split_from (sep : string) (skip : nat) (s : string) : list string :=
  match s with
  | EmptyString => [""]
  | String c s' =>
      match skip with
      | S k => split_from sep k s'
      | O =>
          if String.prefix sep s
          then "" :: split_from sep (Nat.pred (String.length sep)) s'
          else match split_from sep 0 s' with
               | p :: ps => String c p :: ps
               | [] => [String c ""]
               end
      end
  end.

Definition split (sep s : string) : list string := split_from sep 0 s.

(** ** Numbers

    The scores mix Python ints and floats.  Ints are [Z]; a float is a
    value of a type [F] with the operations the program applies. *)

Class PyFloat (F : Type) := {
  of_int : Z → F;                 (* int used where a float is expected *)
  fadd : F → F → F;
  fmul : F → F → F;
  fdiv : F → F → F;
  flt : F → F → bool;             (* [flt a b] is [a < b] *)
  pos_inf : F;                    (* float('inf') *)
  neg_inf : F;                    (* -float('inf') *)
  py_float : string → option F;   (* float(s); None is ValueError *)
}.

(** ** The rules engine (python-chess) *)

Class Rules (Move : Type) := {
  turn : Fen → bool;                     (* chess.Board(fen).turn, True is White *)
  legal_moves : Fen → list Move;         (* list(chess.Board(fen).legal_moves) *)
  push : Fen → Move → Fen;               (* b = chess.Board(fen); b.push(m); b.fen() *)
  from_uci : string → option Move;       (* chess.Move.from_uci; None is InvalidMoveError *)
  move_bool : Move → bool;               (* bool(move): False for the null move *)
  game_over : Fen → list Move → bool;    (* is_game_over() of the board that started
                                            at the fen and has the moves on its stack *)
}.

(** ** The engines *)

Inductive EvalType : Type := Cp | Mate.   (* 'cp' and 'mate' *)

(** The dict returned by [Stockfish.get_evaluation]. *)
Record Evaluation : Type := { ev_type : EvalType; ev_value : Z }.

(** An info dict of an lc0 analysis; only its ['string'] key is read. *)
Record Info : Type := { info_string : option string }.

Class Engines (F : Type) := {
  stockfish_get_evaluation : Fen → Evaluation;
  stockfish_get_best_move : Fen → option string;
  lc0_analysis : Fen → list Info;
  np_random_choice : list string → list F → string;
}.

(** A distribution: (move in UCI notation, likelihood). *)
Abbreviation Distribution F := (list (string * F)) (only parsing).

Section Players.
Context {F : Type} `{!PyFloat F} {Move : Type} `{!Rules Move} `{!Engines F}.

(** *** MaiaPlayer *)

Definition parse_info (s : string) : Result (string * F) :=
  let s := join "" (split " " s) in
  move ← py_index (split "(" s) 0;
  rest ← py_index (split "P:" s) 1;
  num ← py_index (split "%" rest) 0;
  match py_float num with
  | Some x => Ok (move, fdiv x (of_int 100))
  | None => Raise ValueError
  end.

(** The body of [for info in analysis]. *)
Fixpoint read_analysis (analysis : list Info) (infos : Distribution F)
    : Result (Distribution F) :=
  match analysis with
  | [] => Ok infos
  | info :: analysis' =>
      match info_string info with
      | Some s =>
          '(move, pct) ← parse_info s;
          if decide (move ≠ "node")
          then read_analysis analysis' (infos ++ [(move, pct)])
          else read_analysis analysis' infos
      | None => read_analysis analysis' infos
      end
  end.

(** [sorted(infos, key=lambda x: x[1], reverse=True)]: descending and
    stable. *)
Fixpoint insert_desc (x : string * F) (l : Distribution F) : Distribution F :=
  match l with
  | [] => [x]
  | y :: l' => if flt x.2 y.2 then y :: insert_desc x l' else x :: l
  end.

Definition sorted_desc (infos : Distribution F) : Distribution F :=
  foldr insert_desc [] infos.

(** [_get_maia_distribution] and [_get_maia_distribution_async] read the
    stream in the same way. *)
Definition get_maia_distribution (fen : Fen) : M (Fen * Distribution F) :=
  call (MaiaLaunch fen);;
  infos ← lift (read_analysis (lc0_analysis fen) []);
  mret (fen, sorted_desc infos).

Definition get_maia_distribution_async := get_maia_distribution.

Fixpoint call_maia_loop (fens : list Fen) (distributions : gmap Fen (Distribution F))
    : M (gmap Fen (Distribution F)) :=
  match fens with
  | [] => mret distributions
  | fen :: fens' =>
      '(f, dist) ← get_maia_distribution fen;
      call_maia_loop fens' (<[fen := dist]> distributions)
  end.

Definition call_maia (fens : list Fen) : M (gmap Fen (Distribution F)) :=
  call_maia_loop fens ∅.

(** [asyncio.gather] over the tasks, run here one after the other. *)
Fixpoint gather (fens : list Fen) : M (list (Fen * Distribution F)) :=
  match fens with
  | [] => mret []
  | fen :: fens' =>
      r ← get_maia_distribution_async fen;
      rs ← gather fens';
      mret (r :: rs)
  end.

Definition call_maia_parallel (fens : list Fen) : M (gmap Fen (Distribution F)) :=
  let fens : gset Fen := list_to_set fens in
  distributions ← gather (elements fens);
  mret (foldl (λ d '(fen, distribution), <[fen := distribution]> d) ∅ distributions).

Definition py_sum (xs : list F) : F := foldl fadd (of_int 0) xs.

Definition move_from_uci (mv : string) : Result Move :=
  match from_uci mv with
  | Some m => Ok m
  | None => Raise ValueError
  end.

(** [MaiaPlayer.move]: [None] is Python's None. *)
Definition maia_move (parallel : bool) (fen : Fen) : M (option Move) :=
  '(fen, distribution) ←
    (if parallel then get_maia_distribution_async fen else get_maia_distribution fen);
  if bool_decide (length distribution < 1)%nat then mret None
  else
    let moves := distribution.*1 in
    let probs := distribution.*2 in
    let norm := py_sum probs in
    let move := np_random_choice moves (map (λ x, fdiv x norm) probs) in
    m ← lift (move_from_uci move);
    mret (Some m).

(** *** AntimaiaPlayer *)

Definition checkmate_weight : Z := 10 * 100.

Definition ideal_move (mate : bool) (val : Z) (white : bool) : bool :=
  if negb mate then false
  else if (0 <? val) && white then true
  else if (val <? 0) && negb white then true
  else false.

(** What [_get_stockfish_eval] makes of the engine's answer. *)
Definition scaled (evaluation : Evaluation) : Z * bool :=
  match ev_type evaluation with
  | Mate => (ev_value evaluation * checkmate_weight, true)
  | Cp => (ev_value evaluation, false)
  end.

Definition get_stockfish_eval (fen : Fen) : M (Z * bool) :=
  call (StockfishEvaluation fen);;
  mret (scaled (stockfish_get_evaluation fen)).

(** First loop over [moves]: both sets receive every first-level fen. *)
Definition first_level (start_fen : Fen) (moves : list Move) : gset Fen * gset Fen :=
  foldl (λ '(maia_fens, stockfish_fens) move,
           let _fen := push start_fen move in
           (maia_fens ∪ {[_fen]}, stockfish_fens ∪ {[_fen]}))
        (∅, ∅) moves.

(** [for mv, pct in dist: ... stockfish_fens.add(_board.fen())] *)
Fixpoint add_followups (fen : Fen) (dist : Distribution F) (stockfish_fens : gset Fen)
    : Result (gset Fen) :=
  match dist with
  | [] => Ok stockfish_fens
  | (mv, pct) :: dist' =>
      m ← move_from_uci mv;
      add_followups fen dist' (stockfish_fens ∪ {[push fen m]})
  end.

(** [for fen, dist in maia_distributions.items(): ...] *)
Fixpoint gather_stockfish_fens (items : list (Fen * Distribution F))
    (stockfish_fens : gset Fen) : Result (gset Fen) :=
  match items with
  | [] => Ok stockfish_fens
  | (fen, dist) :: items' =>
      stockfish_fens ← add_followups fen dist (stockfish_fens ∪ {[fen]});
      gather_stockfish_fens items' stockfish_fens
  end.

(** [for fen in stockfish_fens: stockfish_evals[fen] = ...] *)
Fixpoint eval_all (fens : list Fen) (stockfish_evals : gmap Fen (Z * bool))
    : M (gmap Fen (Z * bool)) :=
  match fens with
  | [] => mret stockfish_evals
  | fen :: fens' =>
      e ← get_stockfish_eval fen;
      eval_all fens' (<[fen := e]> stockfish_evals)
  end.

(** [for mv, pct in distribution: ... move_results.append(val * pct)] *)
Fixpoint move_results_loop (fen1 : Fen) (stockfish_evals : gmap Fen (Z * bool))
    (distribution : Distribution F) (move_results : list F) : Result (list F) :=
  match distribution with
  | [] => Ok move_results
  | (mv, pct) :: distribution' =>
      m ← move_from_uci mv;
      '(val, mate) ← py_getitem stockfish_evals (push fen1 m);
      move_results_loop fen1 stockfish_evals distribution'
        (move_results ++ [fmul (of_int val) pct])
  end.

(** [move_results = []], the inner loop and [score = sum(move_results)]. *)
Definition expected_score (fen1 : Fen) (stockfish_evals : gmap Fen (Z * bool))
    (distribution : Distribution F) : Result F :=
  move_results ← move_results_loop fen1 stockfish_evals distribution [];
  Ok (py_sum move_results).

(** The last loop over [moves], with its early [return move]. *)
Fixpoint choose (start_fen : Fen) (white : bool)
    (maia_distributions : gmap Fen (Distribution F))
    (stockfish_evals : gmap Fen (Z * bool))
    (moves : list Move) (best_move : Move) (best_score : F) : Result Move :=
  match moves with
  | [] => Ok best_move
  | move :: moves' =>
      let fen1 := push start_fen move in
      '(val, mate) ← py_getitem stockfish_evals fen1;
      if ideal_move mate val white then Ok move
      else
        distribution ← py_getitem maia_distributions fen1;
        score ← expected_score fen1 stockfish_evals distribution;
        if white && flt best_score score
        then choose start_fen white maia_distributions stockfish_evals moves' move score
        else if negb white && flt score best_score
        then choose start_fen white maia_distributions stockfish_evals moves' move score
        else choose start_fen white maia_distributions stockfish_evals moves'
               best_move best_score
  end.

Definition best_move_from_uci (uci : option string) : Result Move :=
  match uci with
  | Some mv => move_from_uci mv
  | None => Raise TypeError
  end.

Definition get_antimaia_move (parallel : bool) (fen : Fen) : M Move :=
  let start_fen := fen in
  let white := turn start_fen in
  let moves := legal_moves start_fen in
  best_move ← lift (py_index moves 0);
  let best_score := if negb white then pos_inf else neg_inf in
  '(val, mate) ← get_stockfish_eval fen;
  if ideal_move mate val white
  then
    call (StockfishBestMove start_fen);;
    lift (best_move_from_uci (stockfish_get_best_move start_fen))
  else
    let '(maia_fens, stockfish_fens) := first_level start_fen moves in
    maia_distributions ←
      (if parallel then call_maia_parallel (elements maia_fens)
       else call_maia (elements maia_fens));
    stockfish_fens ←
      lift (gather_stockfish_fens (map_to_list maia_distributions) stockfish_fens);
    stockfish_evals ← eval_all (elements stockfish_fens) ∅;
    lift (choose start_fen white maia_distributions stockfish_evals
            moves best_move best_score).

Definition antimaia_move (parallel : bool) (fen : Fen) : M (option Move) :=
  m ← get_antimaia_move parallel fen;
  mret (Some m).

(** *** StockfishPlayer *)

Definition stockfish_move (fen : Fen) : M (option Move) :=
  call (StockfishBestMove fen);;
  m ← lift (best_move_from_uci (stockfish_get_best_move fen));
  mret (Some m).

End Players.

(** ** GameManager *)

(** A player of any class: its name and its [move] method. *)
Record Player (Move : Type) : Type := {
  name : string;
  move : Fen → M (option Move);
}.
Arguments name {Move} p.
Arguments move {Move} p fen.

(** chess.STARTING_FEN, the position of [chess.Board()]. *)
Definition STARTING_FEN : Fen :=
  "rnbqkbnr/pppppppp/8/8/8/8/PPPPPPPP/RNBQKBNR w KQkq - 0 1".

(** The game built by [chess.pgn.Game.from_board]: the headers set by
    [pit] and the moves of the board's stack. *)
Record Game (Move : Type) : Type := {
  headers : gmap string string;
  mainline : list Move;
}.
Arguments headers {Move} g.
Arguments mainline {Move} g.

Inductive Loop (A : Type) : Type :=
  | Break (a : A)
  | Continue (a : A).
Arguments Break {A} a.
Arguments Continue {A} a.

Section GameManager.
Context {Move : Type} `{!Rules Move}.
Variables (white black : Player Move).
Variable round : option Z.
Variable today : string.      (* datetime.today().strftime('%Y.%m.%d') *)

(** The board of [pit] is [chess.Board()] with a stack of moves. *)
Definition board_fen (stack : list Move) : Fen := foldl push STARTING_FEN stack.
Definition is_game_over (stack : list Move) : bool := game_over STARTING_FEN stack.

(** [board.push(w)]: python-chess reads the squares of its argument, so
    the call raises AttributeError on None; a null move is pushed like
    any other. *)
Definition board_push (stack : list Move) (w : option Move) : Result (list Move) :=
  match w with
  | Some m => Ok (stack ++ [m])
  | None => Raise AttributeError
  end.

(** [not w] for a move or None. *)
Definition py_not (w : option Move) : bool :=
  match w with
  | Some m => negb (move_bool m)
  | None => true
  end.

(** One pass through the body of [while not board.is_game_over()]
    (the printing and its move counter are left out). *)
Definition pit_round (board : list Move) : M (Loop (list Move)) :=
  w ← move white (board_fen board);
  board ← lift (board_push board w);
  if py_not w || is_game_over board then mret (Break board)
  else
    b ← move black (board_fen board);
    board ← lift (board_push board b);
    if py_not b || is_game_over board then mret (Break board)
    else mret (Continue board).

(** The loop, for at most [fuel] passes; [None] when they do not
    suffice. *)
Fixpoint pit_loop (fuel : nat) (board : list Move) : M (option (list Move)) :=
  if is_game_over board then mret (Some board)
  else
    match fuel with
    | O => mret None
    | S fuel' =>
        r ← pit_round board;
        match r with
        | Break board' => mret (Some board')
        | Continue board' => pit_loop fuel' board'
        end
    end.

Definition game_of_board (board : list Move) : Game Move :=
  let h : gmap string string := ∅ in
  let h := <["White" := name white]> h in
  let h := <["Black" := name black]> h in
  let h := <["Event" := name white +:+ " vs. " +:+ name black]> h in
  let h := <["Date" := today]> h in
  let h := <["Site" := "lukesalamone.com"]> h in
  let h := match round with
           | Some r => if decide (r = 0) then h else <["Round" := pretty r]> h
           | None => h
           end in
  {| headers := h; mainline := board |}.

Definition pit (fuel : nat) : M (option (Game Move)) :=
  board ← pit_loop fuel [];
  mret (game_of_board <$> board).

End GameManager.

(** *** Saving *)

(** The file system seen by [save]: a tree of directories and regular
    files, without links, access rights or limits on the length of a
    name.  A node is found by the names on the way from the root; [cwd]
    is the working directory of the process. *)
Inductive Node : Type :=
  | Directory
  | RegularFile (text : string).

Record FS : Type := {
  nodes : gmap (list string) Node;
  cwd : list string;
}.

(** The subclasses of OSError that the calls below raise. *)
Definition is_OSError (e : PyError) : bool :=
  match e with
  | FileNotFoundError | FileExistsError | NotADirectoryError | IsADirectoryError => true
  | _ => false
  end.

(** A path with a zero character in it is refused with ValueError before
    the file system is asked. *)
Fixpoint has_nul (s : string) : bool :=
  match s with
  | EmptyString => false
  | String c s' => bool_decide (c = Ascii.zero) || has_nul s'
  end.

(** One step of the path walk: the node at [cur] is searched for the
    name [c], so it has to be a directory. *)
Definition enter (fs : FS) (cur : list string) (c : string) : Result (list string) :=
  match nodes fs !! cur with
  | Some Directory =>
      Ok (if decide (c = ".") then cur
          else if decide (c = "..") then removelast cur
          else cur ++ [c])
  | Some (RegularFile _) => Raise NotADirectoryError
  | None => Raise FileNotFoundError
  end.

Fixpoint walk (fs : FS) (cur : list string) (cs : list string)
    : Result (list string) :=
  match cs with
  | [] => Ok cur
  | c :: cs' => cur' ← enter fs cur c; walk fs cur' cs'
  end.

(** [Path(s)] as pathlib holds it: whether it starts at the root, and its
    parts, among which there is no empty one and no ["."]. *)
Record PurePath : Type := { anchored : bool; parts : list string }.

Definition Path (s : string) : PurePath :=
  {| anchored := String.prefix "/" s;
     parts := filter (λ c, c ≠ "" ∧ c ≠ ".") (split "/" s) |}.

(** [self.parent]; the parent of a path without parts is the path. *)
Definition parent (p : PurePath) : PurePath :=
  {| anchored := anchored p; parts := removelast (parts p) |}.

Definition origin (fs : FS) (p : PurePath) : list string :=
  if anchored p then [] else cwd fs.

(** [os.stat(p)] *)
Definition os_stat (fs : FS) (p : PurePath) : Result Node :=
  if existsb has_nul (parts p) then Raise ValueError
  else
    l ← walk fs (origin fs p) (parts p);
    match nodes fs !! l with
    | Some n => Ok n
    | None => Raise FileNotFoundError
    end.

(** [p.is_file()] and [p.is_dir()]: False where [os.stat] raises. *)
Definition path_is_file (fs : FS) (p : PurePath) : bool :=
  match os_stat fs p with
  | Ok (RegularFile _) => true
  | _ => false
  end.

Definition path_is_dir (fs : FS) (p : PurePath) : bool :=
  match os_stat fs p with
  | Ok Directory => true
  | _ => false
  end.

(** [os.mkdir(p)]: the directory above has to be there, and nothing at
    the path itself. *)
Definition os_mkdir (fs : FS) (p : PurePath) : Result FS :=
  if existsb has_nul (parts p) then Raise ValueError
  else
    dir ← walk fs (origin fs p) (removelast (parts p));
    match nodes fs !! dir with
    | Some Directory =>
        match last (parts p) with
        | None => Raise FileExistsError
        | Some c =>
            if decide (c = "..") then Raise FileExistsError
            else
              match nodes fs !! (dir ++ [c]) with
              | Some _ => Raise FileExistsError
              | None =>
                  Ok {| nodes := <[dir ++ [c] := Directory]> (nodes fs);
                        cwd := cwd fs |}
              end
        end
    | Some (RegularFile _) => Raise NotADirectoryError
    | None => Raise FileNotFoundError
    end.

(** [p.mkdir(parents=False, exist_ok=True)]: an OSError other than
    FileNotFoundError is dropped when the path is a directory. *)
Definition mkdir_exist_ok (fs : FS) (p : PurePath) : Result unit * FS :=
  match os_mkdir fs p with
  | Ok fs' => (Ok tt, fs')
  | Raise FileNotFoundError => (Raise FileNotFoundError, fs)
  | Raise e =>
      if is_OSError e && path_is_dir fs p then (Ok tt, fs) else (Raise e, fs)
  end.

(** [p.mkdir(parents=True, exist_ok=True)] for the path with the parts
    [reverse rparts]: on FileNotFoundError the parent is made in the same
    way, and then the path itself without [parents]. *)
Fixpoint mkdir_from (fs : FS) (anch : bool) (rparts : list string)
    : Result unit * FS :=
  let self := {| anchored := anch; parts := reverse rparts |} in
  match os_mkdir fs self with
  | Raise FileNotFoundError =>
      match rparts with
      | [] => (Raise FileNotFoundError, fs)
      | _ :: above =>
          match mkdir_from fs anch above with
          | (Ok _, fs') => mkdir_exist_ok fs' self
          | (Raise e, fs') => (Raise e, fs')
          end
      end
  | _ => mkdir_exist_ok fs self
  end.

Inductive PyObject : Type :=
  | PyModule (qualname : string)
  | PyClass (qualname : string)
  | PyInt (n : Z)
  | PyStr (s : string).

(** The names bound at module level of antimaia.py by its imports and its
    class statements. *)
Definition module_globals : gmap string PyObject :=
  list_to_map
    [("asyncio", PyModule "asyncio"); ("Path", PyClass "pathlib.Path");
     ("subprocess", PyModule "subprocess"); ("chess", PyModule "chess");
     ("PIPE", PyInt (-1)); ("DEVNULL", PyInt (-3));
     ("Stockfish", PyClass "stockfish.Stockfish"); ("np", PyModule "numpy");
     ("datetime", PyClass "datetime.datetime");
     ("Player", PyClass "Player"); ("MaiaPlayer", PyClass "MaiaPlayer");
     ("AntimaiaPlayer", PyClass "AntimaiaPlayer");
     ("StockfishPlayer", PyClass "StockfishPlayer");
     ("GameManager", PyClass "GameManager")].

(** Reading a name that is not local to a function and is no builtin. *)
Definition load_global (name : string) : Result PyObject :=
  match module_globals !! name with
  | Some o => Ok o
  | None => Raise (NameError name)
  end.

Section Save.
(** What [random.choices('0123456789abcdef', k=6)] would return, joined. *)
Variable drawn : nat → string.

(** [Path(path).is_file()] *)
Definition is_file (fs : FS) (path : string) : bool :=
  path_is_file fs (Path path).

Definition unique_part (n : nat) : Result string :=
  random ← load_global "random";
  match random with
  | PyModule "random" => Ok (drawn n)
  | _ => Raise AttributeError
  end.

Definition str_split (o : PyObject) (sep : string) : Result (list string) :=
  match o with
  | PyStr s => Ok (split sep s)
  | _ => Raise AttributeError
  end.

(** [while Path(path).is_file(): ...], for at most [fuel] passes. *)
Fixpoint rename_loop (fuel : nat) (fs : FS) (original_path : PyObject) (path : string)
    : Result (option string) :=
  if is_file fs path
  then
    match fuel with
    | O => Ok None
    | S fuel' =>
        parts ← str_split original_path ".";
        let path := join "" (removelast parts) in
        extension ← py_index parts (Nat.pred (length parts));
        u ← unique_part fuel';
        let path := path +:+ "_" +:+ u +:+ "." +:+ extension in
        rename_loop fuel' fs original_path path
    end
  else Ok (Some path).

(** [Path(d).mkdir(parents=True, exist_ok=True)] *)
Definition mkdir_parents (fs : FS) (d : string) : Result unit * FS :=
  mkdir_from fs (anchored (Path d)) (reverse (parts (Path d))).

(** [with open(path, 'w') as f: f.write(text)]: the file is made, or
    emptied, in the directory that the path before its last name leads
    to; a path that names a directory, or ends in a slash, is refused. *)
Definition write_file (fs : FS) (path text : string) : Result unit * FS :=
  if has_nul path then (Raise ValueError, fs)
  else if decide (path = "") then (Raise FileNotFoundError, fs)
  else
    let cs := filter (λ c, c ≠ "") (split "/" path) in
    let start := if String.prefix "/" path then [] else cwd fs in
    match walk fs start (removelast cs) with
    | Raise e => (Raise e, fs)
    | Ok dir =>
        match nodes fs !! dir with
        | Some Directory =>
            match last cs with
            | None => (Raise IsADirectoryError, fs)
            | Some c =>
                if decide (c = "." ∨ c = "..") then (Raise IsADirectoryError, fs)
                else if decide (last (split "/" path) = Some "")
                then (Raise IsADirectoryError, fs)
                else
                  match nodes fs !! (dir ++ [c]) with
                  | Some Directory => (Raise IsADirectoryError, fs)
                  | _ =>
                      (Ok tt,
                       {| nodes := <[dir ++ [c] := RegularFile text]> (nodes fs);
                          cwd := cwd fs |})
                  end
            end
        | Some (RegularFile _) => (Raise NotADirectoryError, fs)
        | None => (Raise FileNotFoundError, fs)
        end
    end.

(** [GameManager.save]: the outcome and the file system it leaves;
    [None] when [fuel] passes of the loop do not suffice. *)
Definition save (fuel : nat) (game_text : string) (path : string) (fs : FS)
    : Result (option unit) * FS :=
  let renamed :=
    if is_file fs path
    then
      original_path ← load_global "filename";
      rename_loop fuel fs original_path path
    else Ok (Some path) in
  match renamed with
  | Raise e => (Raise e, fs)
  | Ok None => (Ok None, fs)
  | Ok (Some path) =>
      match mkdir_parents fs (join "/" (removelast (split "/" path))) with
      | (Raise e, fs) => (Raise e, fs)
      | (Ok _, fs) =>
          match write_file fs path game_text with
          | (Raise e, fs) => (Raise e, fs)
          | (Ok _, fs) => (Ok (Some tt), fs)
          end
      end
  end.

End Save.

(** What the statements on saving speak of. *)

(** A part of a path that names an entry of a directory. *)
Definition entry_name (c : string) : Prop :=
  c ≠ "" ∧ c ≠ "." ∧ c ≠ ".." ∧ has_nul c = false.

(** The directories that a path relative to the working directory goes
    through: the working directory, and below it the path cut after each
    of its parts but the last. *)
Definition above (fs : FS) (path : string) : list (list string) :=
  let cs := split "/" path in
  map (λ k, cwd fs ++ take k cs) (seq 0 (length cs)).

Definition no_file_at (fs : FS) (l : list string) : Prop :=
  match nodes fs !! l with
  | Some (RegularFile _) => False
  | _ => True
  end.

(** The path leads to a regular file with the text. *)
Definition holds (fs : FS) (path text : string) : Prop :=
  os_stat fs (Path path) = Ok (RegularFile text).

(** ** What the selector is specified against *)

Section Specification.
Context {F : Type} `{!PyFloat F} {Move : Type} `{!Rules Move} `{!Engines F}.

(** The stream of a position is read without an exception. *)
Definition parses (fen : Fen) : Prop :=
  match read_analysis (lc0_analysis fen) [] with
  | Ok _ => True
  | Raise _ => False
  end.

(** The distribution the oracle client returns for a position. *)
Definition maia_distribution (fen : Fen) : Distribution F :=
  match read_analysis (lc0_analysis fen) [] with
  | Ok infos => sorted_desc infos
  | Raise _ => []
  end.

Definition decodes (x : string * F) : Prop :=
  match from_uci x.1 with
  | Some _ => True
  | None => False
  end.

(** The evaluation of a position as [_get_stockfish_eval] returns it. *)
Definition evaluation (fen : Fen) : Z := (scaled (stockfish_get_evaluation fen)).1.

(** The engine reports a mate that favours the side [white]. *)
Definition mate_for (white : bool) (fen : Fen) : bool :=
  let '(val, mate) := scaled (stockfish_get_evaluation fen) in
  ideal_move mate val white.

(** likelihood × evaluation of the follow-up position of one pair. *)
Definition weighted (fen1 : Fen) (x : string * F) : F :=
  match from_uci x.1 with
  | Some m => fmul (of_int (evaluation (push fen1 m))) x.2
  | None => of_int 0
  end.

(** The follow-up position of a pair is in the cache, with the
    engine's evaluation. *)
Definition cached (fen1 : Fen) (stockfish_evals : gmap Fen (Z * bool))
    (x : string * F) : Prop :=
  match from_uci x.1 with
  | Some m => stockfish_evals !! push fen1 m
              = Some (scaled (stockfish_get_evaluation (push fen1 m)))
  | None => False
  end.

(** The expected value of the candidate that leads to [fen1]. *)
Definition expected_value (fen1 : Fen) : F :=
  py_sum (map (weighted fen1) (maia_distribution fen1)).

(** [a] is strictly better than [b] for the side to move. *)
Definition better (white : bool) (a b : F) : bool :=
  if white then flt b a else flt a b.


(** How often lc0 was launched on a position. *)
Definition launches (fen : Fen) (log : list Event) : nat :=
  length (filter (λ ev, ev = MaiaLaunch fen) log).

(** The lines of a stream that are kept: those with a ['string'] that
    parses and whose move is not ['node'], in stream order. *)
Definition kept (analysis : list Info) : Distribution F :=
  flat_map (λ info,
    match info_string info with
    | Some s =>
        match parse_info s with
        | Ok (move, pct) => if decide (move ≠ "node") then [(move, pct)] else []
        | Raise _ => []
        end
    | None => []
    end) analysis.

(** The score the selector starts from. *)
Definition initial_score (white : bool) : F :=
  if negb white then pos_inf else neg_inf.

(** The move and the score the last loop holds after it went through
    [moves] without a shortcut. *)
Definition keep_best (white : bool) (start_fen : Fen) (moves : list Move)
    (best : Move * F) : Move * F :=
  foldl (λ best move,
           let score := expected_value (push start_fen move) in
           if better white score best.2 then (move, score) else best)
        best moves.


(** The dicts after lc0, and Stockfish, were asked for [fens] in turn. *)
Definition distributions_of (fens : list Fen) (d : gmap Fen (Distribution F))
    : gmap Fen (Distribution F) :=
  foldl (λ d fen, <[fen := maia_distribution fen]> d) d fens.

Definition evaluations_of (fens : list Fen) (e : gmap Fen (Z * bool))
    : gmap Fen (Z * bool) :=
  foldl (λ e fen, <[fen := scaled (stockfish_get_evaluation fen)]> e) e fens.

(** Every ['string'] line of the stream parses. *)
Definition well_formed_line (info : Info) : Prop :=
  match info_string info with
  | Some s => match parse_info s with Ok _ => True | Raise _ => False end
  | None => True
  end.

(** The string without its spaces. *)
Fixpoint remove_spaces (s : string) : string :=
  match s with
  | EmptyString => EmptyString
  | String c s' =>
      if decide (c = " "%char) then remove_spaces s' else String c (remove_spaces s')
  end.

(** How often Stockfish was asked to evaluate a position. *)
Definition evaluations (fen : Fen) (log : list Event) : nat :=
  length (filter (λ ev, ev = StockfishEvaluation fen) log).

(** A first-level position whose stream parses and whose moves decode. *)
Definition readable (fen1 : Fen) : Prop :=
  parses fen1 ∧ Forall decodes (maia_distribution fen1).

(** Why a match stopped: the game is over, or the last move is falsy
    (a null move). *)
Definition stopped (board : list Move) : Prop :=
  is_game_over board = true ∨ ∃ m, last board = Some m ∧ move_bool m = false.

(** What the last loop needs of the two dicts for one candidate. *)
Definition supplied (start_fen : Fen) (D : gmap Fen (Distribution F))
    (E : gmap Fen (Z * bool)) (m : Move) : Prop :=
  let fen1 := push start_fen m in
  E !! fen1 = Some (scaled (stockfish_get_evaluation fen1))
  ∧ D !! fen1 = Some (maia_distribution fen1)
  ∧ Forall (cached fen1 E) (maia_distribution fen1).


End Specification.

(** Laws of exact addition, assumed where a statement needs them.  They
    hold of the integers; the addition of Python's floats rounds, and is
    commutative without being associative. *)
Class AddLaws (F : Type) `{!PyFloat F} : Prop := {
  fadd_comm : ∀ a b : F, fadd a b = fadd b a;
  fadd_assoc : ∀ a b c : F, fadd a (fadd b c) = fadd (fadd a b) c;
}.

(** [<] is a strict weak order with the infinities at its ends (floats
    other than NaN). *)
Class OrderLaws (F : Type) `{!PyFloat F} : Prop := {
  flt_asym : ∀ a b : F, flt a b = true → flt b a = false;
  flt_negtrans : ∀ a b c : F, flt a b = false → flt b c = false → flt a c = false;
  flt_neg_inf : ∀ a : F, flt a neg_inf = false;
  flt_pos_inf : ∀ a : F, flt pos_inf a = false;
}.

(** ** Small instances

    Integers with two infinities serve as numbers, and a table of
    positions as rules engine, where a statement is shown on an example. *)

Module Example.

Inductive xint : Type := NegInf | Fin (z : Z) | PosInf.

Definition xadd (a b : xint) : xint :=
  match a, b with
  | NegInf, _ | _, NegInf => NegInf
  | PosInf, _ | _, PosInf => PosInf
  | Fin x, Fin y => Fin (x + y)
  end.

Definition xmul (a b : xint) : xint :=
  match a, b with
  | Fin x, Fin y => Fin (x * y)
  | NegInf, _ | _, NegInf => NegInf
  | PosInf, _ | _, PosInf => PosInf
  end.

Definition xdiv (a b : xint) : xint :=
  match a, b with
  | Fin x, Fin y => Fin (x / y)
  | _, _ => a
  end.

Definition xlt (a b : xint) : bool :=
  match a, b with
  | NegInf, NegInf => false
  | NegInf, _ => true
  | Fin x, Fin y => x <? y
  | Fin _, PosInf => true
  | _, _ => false
  end.

Definition digit (c : ascii) : option Z :=
  let n := nat_of_ascii c in
  if bool_decide (48 ≤ n ≤ 57)%nat then Some (Z.of_nat n - 48) else None.

(** Reads a non-empty row of decimal digits. *)
Fixpoint digits (acc : Z) (s : string) : option Z :=
  match s with
  | EmptyString => Some acc
  | String c s' =>
      match digit c with
      | Some d => digits (10 * acc + d) s'
      | None => None
      end
  end.

Definition xfloat (s : string) : option xint :=
  match s with
  | EmptyString => None
  | _ => Fin <$> digits 0 s
  end.

#[export] Instance xint_float : PyFloat xint := {|
  of_int := Fin; fadd := xadd; fmul := xmul; fdiv := xdiv; flt := xlt;
  pos_inf := PosInf; neg_inf := NegInf; py_float := xfloat |}.

(** Python's floats themselves: IEEE 754 binary64, every operation
    rounded to the nearest value, ties to even.  An int becomes the
    nearest float; [float(s)] is read for a row of digits, as above. *)
Definition float_of_int (z : Z) : PrimFloat.float :=
  FloatOps.SF2Prim
    (SpecFloat.binary_normalize FloatOps.prec FloatOps.emax z 0 false).

Definition float_of_digits (s : string) : option PrimFloat.float :=
  match s with
  | EmptyString => None
  | _ => float_of_int <$> digits 0 s
  end.

#[export] Instance binary64_float : PyFloat PrimFloat.float := {|
  of_int := float_of_int;
  fadd := PrimFloat.add; fmul := PrimFloat.mul; fdiv := PrimFloat.div;
  flt := PrimFloat.ltb;
  pos_inf := PrimFloat.infinity; neg_inf := PrimFloat.neg_infinity;
  py_float := float_of_digits |}.

(** A rules engine given by a table: the positions with White to move,
    and for each position its legal moves with the positions they
    lead to. *)
Definition table_moves (edges : list (Fen * list (string * Fen))) (fen : Fen)
    : list (string * Fen) :=
  default [] ((list_to_map edges : gmap Fen (list (string * Fen))) !! fen).

Definition table_push (edges : list (Fen * list (string * Fen))) (fen : Fen)
    (m : string) : Fen :=
  default (fen +:+ " " +:+ m)
    ((list_to_map (table_moves edges fen) : gmap string Fen) !! m).

Definition table_rules (white_fens : list Fen)
    (edges : list (Fen * list (string * Fen))) : Rules string := {|
  turn fen := bool_decide (fen ∈ white_fens);
  legal_moves fen := (table_moves edges fen).*1;
  push := table_push edges;
  from_uci mv := if bool_decide (4 ≤ String.length mv ≤ 5)%nat then Some mv else None;
  move_bool m := bool_decide (m ≠ "0000");
  game_over fen stack :=
    bool_decide ((table_moves edges (foldl (table_push edges) fen stack)).*1 = []) |}.

(** Engines given by tables; a position absent from them is level, has
    no recommended move and an empty stream. *)
Definition table_engines (evals : list (Fen * Evaluation))
    (best : list (Fen * string)) (streams : list (Fen * list string))
    : Engines xint := {|
  stockfish_get_evaluation fen :=
    default {| ev_type := Cp; ev_value := 0 |}
      ((list_to_map evals : gmap Fen Evaluation) !! fen);
  stockfish_get_best_move fen := (list_to_map best : gmap Fen string) !! fen;
  lc0_analysis fen :=
    {| info_string := None |} ::
    map (λ s, {| info_string := Some s |})
      (default [] ((list_to_map streams : gmap Fen (list string)) !! fen));
  np_random_choice moves probs := default "" (head moves) |}.

End Example.

(** Example positions and engines used below. *)

Module Worlds.
Import Example.

(** Black to move, not in check and without a legal move. *)
Definition stalemate : Fen := "7k/5Q2/6K1/8/8/8/8/8 b - - 0 1".

Definition no_moves : Rules string := table_rules [] [].
Definition silent : Engines xint := table_engines [] [] [].

(** White mates at once with the rook. *)
Definition back_rank : Fen := "6k1/5ppp/8/8/8/8/8/R3K3 w Q - 0 1".

Definition back_rank_rules : Rules string :=
  table_rules [back_rank]
    [(back_rank, [("e1e2", "6k1/5ppp/8/8/8/8/4K3/R7 b - - 1 1");
                  ("a1a8", "R5k1/5ppp/8/8/8/8/8/4K3 b - - 1 1")])].

Definition back_rank_engines : Engines xint :=
  table_engines [(back_rank, {| ev_type := Mate; ev_value := 1 |})]
    [(back_rank, "a1a8")] [].

(** Four moves from ["r"], two of which reach the same position ["a"];
    ["c"] gets an empty distribution. *)
Definition fork_rules : Rules string :=
  table_rules ["r"]
    [("r", [("e2e4", "a"); ("d2d4", "a"); ("g1f3", "b"); ("b1c3", "c")]);
     ("a", [("e7e5", "a1")]);
     ("b", [("e7e5", "b1"); ("d7d5", "b2")]);
     ("c", [("e7e5", "c1")])].

Definition fork_engines : Engines xint :=
  table_engines
    [("a1", {| ev_type := Cp; ev_value := 30 |});
     ("b1", {| ev_type := Cp; ev_value := 50 |});
     ("b2", {| ev_type := Cp; ev_value := 10 |})]
    []
    [("a", ["e7e5  (322 ) N: 0 (P: 9000%)"; "node  (0) N: 1 (P: 10000%)"]);
     ("b", ["e7e5  (322 ) N: 0 (P: 5000%)"; "d7d5  (293 ) N: 0 (P: 6000%)"])].

(** The opening position with one move for each side, and an lc0 that
    prints no move line. *)
Definition opening_rules : Rules string :=
  table_rules [STARTING_FEN]
    [(STARTING_FEN, [("e2e4", "after e2e4")]);
     ("after e2e4", [("e7e5", "after e2e4 e7e5")])].

Definition maia_player : Player string :=
  {| name := "maia";
     move := maia_move (PyFloat0 := xint_float) (Rules0 := opening_rules)
               (Engines0 := silent) false |}.

Definition stockfish_player : Player string :=
  {| name := "stockfish";
     move := stockfish_move (Rules0 := opening_rules) (Engines0 := silent) |}.


(** An lc0 whose stream carries a line that is no move statistic. *)
Definition noisy : Engines xint :=
  table_engines [] []
    [("r", ["e2e4  (322 ) N: 0 (P: 9000%)"; "Loading weights file"])].

(** The fork with a position ["b"] in which White mates. *)
Definition mating_engines : Engines xint :=
  table_engines
    [("b", {| ev_type := Mate; ev_value := 2 |});
     ("a1", {| ev_type := Cp; ev_value := 30 |})]
    []
    [("a", ["e7e5  (322 ) N: 0 (P: 9000%)"])].

(** The fork with a stream for ["a"] that carries no move statistic. *)
Definition noisy_fork : Engines xint :=
  table_engines [] [] [("a", ["Loading weights file"])].

(** A Stockfish that knows one move for each side in the opening. *)
Definition scripted : Engines xint :=
  table_engines [] [(STARTING_FEN, "e2e4"); ("after e2e4", "e7e5")] [].

Definition scripted_player (n : string) : Player string :=
  {| name := n;
     move := stockfish_move (Rules0 := opening_rules) (Engines0 := scripted) |}.

(** The opening position with one move, after which the game is over. *)
Definition short_rules : Rules string :=
  table_rules [STARTING_FEN] [(STARTING_FEN, [("e2e4", "after e2e4")])].

(** Three replies from ["b"], with the likelihoods 10%, 20% and 30% in
    the order in which lc0 lists them, each to a position that Stockfish
    scores at one centipawn; the numbers are Python's floats. *)
Definition replies_rules : Rules string :=
  table_rules [] [("b", [("a7a6", "b1"); ("b7b6", "b2"); ("c7c6", "b3")])].

Definition replies_engines : Engines PrimFloat.float := {|
  stockfish_get_evaluation fen := {| ev_type := Cp; ev_value := 1 |};
  stockfish_get_best_move fen := None;
  lc0_analysis fen :=
    if decide (fen = "b")
    then map (λ s, {| info_string := Some s |})
           ["a7a6  (204 ) N: 0 (P: 10%)"; "b7b6  (234 ) N: 0 (P: 20%)";
            "c7c6  (264 ) N: 0 (P: 30%)"]
    else [];
  np_random_choice moves probs := default "" (head moves) |}.

Definition percent (n : Z) : PrimFloat.float :=
  fdiv (of_int n) (of_int 100).

Definition replies : list (string * PrimFloat.float) :=
  [("a7a6", percent 10); ("b7b6", percent 20); ("c7c6", percent 30)].

(** A working directory with one saved game. *)
Definition one_game : FS :=
  {| nodes := list_to_map
       [([], Directory); (["srv"], Directory); (["srv"; "games"], Directory);
        (["srv"; "games"; "g.pgn"], RegularFile "1. e4 e5 *")];
     cwd := ["srv"] |}.

(** The working directory before any game is saved. *)
Definition no_game : FS :=
  {| nodes := list_to_map [([], Directory); (["srv"], Directory)];
     cwd := ["srv"] |}.

End Worlds.

(** * Properties *)

(** ** The monad *)

Lemma bind_ok {A B} (m : M A) (f : A → M B) a log :
  m = (Ok a, log) → m ≫= f = ((f a).1, log ++ (f a).2).
Proof. intros ->. unfold mbind, M_bind. by destruct (f a). Qed.

Lemma bind_raise {A B} (m : M A) (f : A → M B) e log :
  m = (Raise e, log) → m ≫= f = (Raise e, log).
Proof. by intros ->. Qed.

Lemma bind_lift {A B} (r : Result A) (f : A → M B) :
  lift r ≫= f = match r with Ok a => f a | Raise e => (Raise e, []) end.
Proof. destruct r; [|done]. unfold lift, mbind, M_bind. by destruct (f a). Qed.

Lemma bind_call {B} ev (k : unit → M B) :
  call ev ≫= k = ((k tt).1, ev :: (k tt).2).
Proof. unfold call, mbind, M_bind. by destruct (k tt). Qed.

(** ** The evaluation of a position *)

Section Selector.
Context {F : Type} `{!PyFloat F} {Move : Type} `{!Rules Move} `{!Engines F}.

Lemma get_stockfish_eval_run fen :
  get_stockfish_eval fen
  = (Ok (scaled (stockfish_get_evaluation fen)), [StockfishEvaluation fen]).
Proof. unfold get_stockfish_eval. by rewrite bind_call. Qed.

(** C1.  On a position without a legal move the selector does not
    return None: reading [moves[0]] raises IndexError, in either mode
    and before any engine is asked. *)
Theorem no_legal_move_raises parallel fen :
  legal_moves fen = [] → get_antimaia_move parallel fen = (Raise IndexError, []).
Proof.
  intros Hm. unfold get_antimaia_move. rewrite Hm.
  rewrite bind_lift. reflexivity.
Qed.

(** C2.  Where the engine's evaluation of the position itself is a mate
    for the side to move (which then has a legal move), the selector
    returns the move Stockfish recommends for that position, and the
    only engine calls of the decision are Stockfish's evaluation and its
    best move: lc0 is never launched, in either mode. *)
Theorem mate_shortcut_skips_maia parallel fen :
  legal_moves fen ≠ [] →
  mate_for (turn fen) fen = true →
  get_antimaia_move parallel fen
  = (best_move_from_uci (stockfish_get_best_move fen),
     [StockfishEvaluation fen; StockfishBestMove fen])
  ∧ ∀ fen', MaiaLaunch fen' ∉ (get_antimaia_move parallel fen).2.
Proof.
  intros Hm Hmate.
  assert (get_antimaia_move parallel fen
          = (best_move_from_uci (stockfish_get_best_move fen),
             [StockfishEvaluation fen; StockfishBestMove fen])) as Hrun.
  { unfold get_antimaia_move, mate_for in *.
    destruct (legal_moves fen) as [|m0 ms]; [done|].
    rewrite bind_lift. cbn [py_index lookup list_lookup].
    rewrite (bind_ok _ _ _ _ (get_stockfish_eval_run fen)).
    destruct (scaled (stockfish_get_evaluation fen)) as [val mate].
    rewrite Hmate, bind_call. done. }
  split; [done|]. rewrite Hrun. intros fen' Hin. cbn in Hin.
  apply elem_of_cons in Hin as [?|Hin]; [done|].
  apply elem_of_cons in Hin as [?|Hin]; [done|].
  by apply elem_of_nil in Hin.
Qed.

End Selector.

(** C2 on an example: White to move mates at once, and the selector plays
    the rook move the engine recommends after two Stockfish calls. *)
Lemma mate_shortcut_skips_maia_witness :
  get_antimaia_move (PyFloat0 := Example.xint_float) (Rules0 := Worlds.back_rank_rules)
    (Engines0 := Worlds.back_rank_engines) false Worlds.back_rank
  = (Ok "a1a8",
     [StockfishEvaluation Worlds.back_rank; StockfishBestMove Worlds.back_rank]).
Proof.
  refine (eq_trans (proj1 (mate_shortcut_skips_maia
    (PyFloat0 := Example.xint_float) (Rules0 := Worlds.back_rank_rules)
    (Engines0 := Worlds.back_rank_engines) false Worlds.back_rank _ _)) _).
  - vm_compute. discriminate.
  - vm_compute. reflexivity.
  - vm_compute. reflexivity.
Defined.

(** C1 on an example: the selector raises on a stalemate position. *)
Lemma no_legal_move_raises_witness :
  get_antimaia_move (PyFloat0 := Example.xint_float) (Rules0 := Worlds.no_moves)
    (Engines0 := Worlds.silent) false Worlds.stalemate
  = (Raise IndexError, []).
Proof.
  apply (no_legal_move_raises (PyFloat0 := Example.xint_float)
           (Rules0 := Worlds.no_moves) (Engines0 := Worlds.silent)).
  vm_compute. reflexivity.
Defined.

(** ** Mate scores *)

Lemma scaled_mate (e : Evaluation) :
  ev_type e = Mate → scaled e = (ev_value e * 1000, true).
Proof. unfold scaled. by intros ->. Qed.

Lemma scaled_cp (e : Evaluation) :
  ev_type e = Cp → scaled e = (ev_value e, false).
Proof. unfold scaled. by intros ->. Qed.

(** C3 as stated fails: a mate in one scores 1000, which does not exceed
    the centipawn score 1500. *)
Lemma mate_in_one_not_dominant :
  ¬ (Z.abs (scaled {| ev_type := Cp; ev_value := 1500 |}).1
     < Z.abs (scaled {| ev_type := Mate; ev_value := 1 |}).1).
Proof. vm_compute. discriminate. Qed.

(** C3, amended.  An evaluation with the mate flag is the engine's signed
    mate distance times 1000: it carries the flag and the sign of the
    distance, and, when the distance is not 0, its magnitude is strictly
    larger than every non-mate score of magnitude below 1000. *)
Theorem mate_score_scaled (e : Evaluation) :
  ev_type e = Mate →
  (scaled e).2 = true
  ∧ (scaled e).1 = 1000 * ev_value e
  ∧ Z.sgn (scaled e).1 = Z.sgn (ev_value e)
  ∧ (ev_value e ≠ 0 →
     ∀ e', ev_type e' = Cp → Z.abs (ev_value e') < 1000 →
           (scaled e').2 = false ∧ Z.abs (scaled e').1 < Z.abs (scaled e).1).
Proof.
  intros Hm. rewrite (scaled_mate e Hm). cbn [fst snd].
  split; [done|]. split; [lia|]. split; [lia|].
  intros Hne e' Hc Hlt. rewrite (scaled_cp e' Hc). cbn [fst snd].
  split; [done|lia].
Qed.

Lemma mate_score_scaled_witness :
  (scaled {| ev_type := Mate; ev_value := -3 |}).1 = -3000
  ∧ Z.abs (scaled {| ev_type := Cp; ev_value := 999 |}).1
    < Z.abs (scaled {| ev_type := Mate; ev_value := -3 |}).1.
Proof.
  pose proof (mate_score_scaled {| ev_type := Mate; ev_value := -3 |} eq_refl)
    as (_ & Hv & _ & Hdom).
  split; [exact Hv|].
  apply (Hdom ltac:(cbn; lia) {| ev_type := Cp; ev_value := 999 |} eq_refl).
  vm_compute. reflexivity.
Defined.

(** ** Saving a game *)

Lemma filename_unbound : load_global "filename" = Raise (NameError "filename").
Proof. vm_compute. reflexivity. Qed.

Lemma random_unbound : load_global "random" = Raise (NameError "random").
Proof. vm_compute. reflexivity. Qed.

(** C5.  Saving to a path that holds a file writes no second file: the
    call raises NameError at [original_path = filename], whatever the
    random draws would be, and leaves the file system as it was. *)
Theorem save_occupied_raises drawn fuel text path fs :
  is_file fs path = true →
  save drawn fuel text path fs = (Raise (NameError "filename"), fs).
Proof. intros Hf. unfold save. rewrite Hf, filename_unbound. reflexivity. Qed.

(** C5 on an example: a second save to [games/g.pgn]. *)
Lemma save_occupied_raises_witness :
  save (λ _, "3fa9c1") 8 "1. d4 d5 *" "games/g.pgn" Worlds.one_game
  = (Raise (NameError "filename"), Worlds.one_game).
Proof. apply save_occupied_raises. vm_compute. reflexivity. Defined.

(** ** The match runner *)

Section Match.
Context {Move : Type} `{!Rules Move}.
Variables (white black : Player Move) (round : option Z) (today : string).

Lemma pit_loop_round fuel board :
  is_game_over board = false →
  pit_loop white black (S fuel) board
  = r ← pit_round white black board;
    match r with
    | Break board' => mret (Some board')
    | Continue board' => pit_loop white black fuel board'
    end.
Proof. intros Hgo. cbn [pit_loop]. by rewrite Hgo. Qed.

(** C4.  At any point of a match that is not over, a selector that
    returns None makes [board.push] raise AttributeError, for White and
    for Black alike: the test [not w] that follows is not reached, the
    loop does not stop with the half-moves recorded, and no game is
    built. *)
Theorem missing_move_raises fuel board :
  is_game_over board = false →
  (∀ log, move white (board_fen board) = (Ok None, log) →
          pit_loop white black (S fuel) board = (Raise AttributeError, log))
  ∧ (∀ w logw logb,
       move white (board_fen board) = (Ok (Some w), logw) →
       py_not (Some w) || is_game_over (board ++ [w]) = false →
       move black (board_fen (board ++ [w])) = (Ok None, logb) →
       pit_loop white black (S fuel) board = (Raise AttributeError, logw ++ logb)).
Proof.
  intros Hgo. rewrite (pit_loop_round _ _ Hgo). unfold pit_round. split.
  - intros log Hw. rewrite (bind_ok _ _ _ _ Hw).
    rewrite bind_lift. cbn [board_push fst snd]. rewrite app_nil_r.
    erewrite (bind_raise (A := Loop (list Move))); reflexivity.
  - intros w logw logb Hw Hnot Hb. rewrite (bind_ok _ _ _ _ Hw).
    rewrite bind_lift. cbn [board_push]. rewrite Hnot.
    rewrite (bind_ok _ _ _ _ Hb), bind_lift. cbn [board_push fst snd].
    rewrite app_nil_r.
    erewrite (bind_raise (A := Loop (list Move))); reflexivity.
Qed.

(** When White's move ends the game the pass breaks with that move
    recorded and Black is not asked. *)
Lemma pit_round_white_ends board w log :
  move white (board_fen board) = (Ok (Some w), log) →
  is_game_over (board ++ [w]) = true →
  pit_round white black board = (Ok (Break (board ++ [w])), log).
Proof.
  intros Hw Hgo. unfold pit_round. rewrite (bind_ok _ _ _ _ Hw).
  rewrite bind_lift. cbn [board_push]. rewrite Hgo, orb_true_r.
  cbn. by rewrite app_nil_r.
Qed.

(** A game that is over is not played on. *)
Lemma pit_loop_over fuel board :
  is_game_over board = true → pit_loop white black fuel board = (Ok (Some board), []).
Proof. intros Hgo. destruct fuel; cbn; by rewrite Hgo. Qed.

End Match.

(** C4 on an example: White is a MaiaPlayer whose lc0 prints no move
    line in the opening position, so its [move] returns None, and the
    match ends in the exception. *)
Lemma missing_move_raises_witness :
  pit (Rules0 := Worlds.opening_rules) Worlds.maia_player Worlds.stockfish_player
    None "2021.06.01" 1
  = (Raise AttributeError, [MaiaLaunch STARTING_FEN]).
Proof.
  unfold pit.
  rewrite (proj1 (missing_move_raises (Rules0 := Worlds.opening_rules)
                    Worlds.maia_player Worlds.stockfish_player 0 []
                    ltac:(vm_compute; reflexivity))
             [MaiaLaunch STARTING_FEN] ltac:(vm_compute; reflexivity)).
  reflexivity.
Defined.

(** ** Reading the stream of lc0 *)

Section Stream.
Context {F : Type} `{!PyFloat F} {Move : Type} `{!Rules Move} `{!Engines F}.

Lemma insert_desc_perm (x : string * F) l : insert_desc x l ≡ₚ x :: l.
Proof.
  induction l as [|y l IH]; cbn; [done|].
  destruct (flt x.2 y.2); [|done].
  rewrite IH. apply Permutation_swap.
Qed.

(** Sorting only reorders the pairs. *)
Lemma sorted_desc_perm (l : Distribution F) : sorted_desc l ≡ₚ l.
Proof.
  induction l as [|x l IH]; cbn; [done|].
  by rewrite insert_desc_perm, IH.
Qed.

(** Lines without a ['string'] and ['node'] lines are dropped. *)
Lemma kept_stringless analysis :
  kept ({| info_string := None |} :: analysis) = kept (F := F) analysis.
Proof. reflexivity. Qed.

Lemma kept_node s pct analysis :
  parse_info s = Ok ("node", pct) →
  kept ({| info_string := Some s |} :: analysis) = kept analysis.
Proof. intros Hp. unfold kept. cbn. by rewrite Hp. Qed.

Lemma split_from_nonempty sep k s : split_from sep k s ≠ [].
Proof.
  revert k. induction s as [|c s IH]; intros k; cbn; [done|].
  destruct k; [|apply IH].
  match goal with |- context [if ?b then _ else _] => destruct b end; [done|].
  by destruct (split_from sep 0 s).
Qed.

(** A line without ['P:'] makes [_parse_info] raise IndexError. *)
Lemma parse_info_no_marker s :
  length (split "P:" (join "" (split " " s))) = 1%nat →
  parse_info s = Raise IndexError.
Proof.
  intros Hlen. unfold parse_info.
  destruct (split "(" (join "" (split " " s))) as [|p ps] eqn:Hs.
  { by apply split_from_nonempty in Hs. }
  cbn. destruct (split "P:" (join "" (split " " s))) as [|q [|q' qs]]; done.
Qed.

Lemma read_analysis_kept analysis infos :
  Forall well_formed_line analysis →
  read_analysis analysis infos = Ok (infos ++ kept analysis).
Proof.
  intros Hwf. revert infos.
  induction Hwf as [|info analysis Hi _ IH]; intros infos; cbn.
  { by rewrite app_nil_r. }
  unfold well_formed_line in Hi.
  destruct (info_string info) as [s|]; [|apply IH].
  destruct (parse_info s) as [[mv pct]|e]; [|done]. cbn.
  destruct (decide (mv ≠ "node")); [|apply IH].
  rewrite IH. by rewrite <- app_assoc.
Qed.

Lemma read_analysis_raises analysis infos info s e :
  info ∈ analysis → info_string info = Some s → parse_info s = Raise e →
  ∃ e', read_analysis analysis infos = Raise e'.
Proof.
  intros Hin Hs Hp. revert infos.
  induction analysis as [|info' analysis IH]; intros infos.
  { by apply elem_of_nil in Hin. }
  apply elem_of_cons in Hin as [<-|Hin]; cbn.
  { rewrite Hs, Hp. by eexists. }
  destruct (info_string info') as [s'|]; [|by apply IH].
  destruct (parse_info s') as [[mv pct]|e']; [|by eexists]. cbn.
  destruct (decide (mv ≠ "node")); by apply IH.
Qed.

Lemma get_maia_distribution_run fen :
  get_maia_distribution fen
  = (match read_analysis (lc0_analysis fen) [] with
     | Ok infos => Ok (fen, sorted_desc infos)
     | Raise e => Raise e
     end, [MaiaLaunch fen]).
Proof.
  unfold get_maia_distribution. rewrite bind_call, bind_lift.
  by destruct (read_analysis (lc0_analysis fen) []).
Qed.

(** C6, amended.  The oracle client drops the lines without a
    ['string'] and the lines whose move is ['node'], and the query
    succeeds with the remaining pairs, sorted, when every ['string']
    line parses; a ['string'] line that does not parse (no ['P:'], or
    a percentage that is no number) makes the whole query raise. *)
Theorem stream_noise_policy fen :
  (Forall well_formed_line (lc0_analysis fen) →
   get_maia_distribution fen
   = (Ok (fen, sorted_desc (kept (lc0_analysis fen))), [MaiaLaunch fen]))
  ∧ (∀ info s e,
       info ∈ lc0_analysis fen → info_string info = Some s →
       parse_info s = Raise e →
       ∃ e', get_maia_distribution fen = (Raise e', [MaiaLaunch fen])).
Proof.
  rewrite get_maia_distribution_run. split.
  - intros Hwf. by rewrite (read_analysis_kept _ [] Hwf).
  - intros info s e Hin Hs Hp.
    destruct (read_analysis_raises _ [] _ _ _ Hin Hs Hp) as [e' ->].
    by exists e'.
Qed.

End Stream.

(** C6 on examples: a stream of a stringless line, a move line and the
    ['node'] line gives the one move; a stream with a line that lacks
    ['P:'] makes the query raise. *)
Lemma stream_noise_policy_witness :
  get_maia_distribution (PyFloat0 := Example.xint_float)
    (Engines0 := Worlds.fork_engines) "a"
  = (Ok ("a", [("e7e5", Example.Fin 90)]), [MaiaLaunch "a"])
  ∧ ∃ e', get_maia_distribution (PyFloat0 := Example.xint_float)
            (Engines0 := Worlds.noisy) "r"
          = (Raise e', [MaiaLaunch "r"]).
Proof.
  split.
  - refine (eq_trans (proj1 (stream_noise_policy (PyFloat0 := Example.xint_float)
      (Engines0 := Worlds.fork_engines) "a") _) _).
    + repeat constructor.
    + vm_compute. reflexivity.
  - refine (proj2 (stream_noise_policy (PyFloat0 := Example.xint_float)
      (Engines0 := Worlds.noisy) "r")
      {| info_string := Some "Loading weights file" |} "Loading weights file"
      IndexError _ eq_refl _).
    + vm_compute. do 2 right. left.
    + vm_compute. reflexivity.
Defined.

(** C6 as stated fails: the line ["Loading weights file"] has no ['P:'],
    and the query raises IndexError instead of discarding it. *)
Lemma noise_line_index_error :
  get_maia_distribution (PyFloat0 := Example.xint_float)
    (Engines0 := Worlds.noisy) "r"
  = (Raise IndexError, [MaiaLaunch "r"]).
Proof. vm_compute. reflexivity. Qed.

(** ** The decision of AntimaiaPlayer *)

Section Decision.
Context {F : Type} `{!PyFloat F} {Move : Type} `{!Rules Move} `{!Engines F}.

Lemma first_level_from start_fen moves (A B : gset Fen) :
  foldl (λ '(maia_fens, stockfish_fens) move,
           let _fen := push start_fen move in
           (maia_fens ∪ {[_fen]}, stockfish_fens ∪ {[_fen]}))
        (A, B) moves
  = (A ∪ list_to_set (map (push start_fen) moves),
     B ∪ list_to_set (map (push start_fen) moves)).
Proof.
  revert A B. induction moves as [|m moves IH]; intros A B; cbn.
  { f_equal; set_solver. }
  rewrite IH. f_equal; set_solver.
Qed.

(** After the first loop both sets hold the first-level positions. *)
Lemma first_level_sets start_fen moves :
  first_level start_fen moves
  = (list_to_set (map (push start_fen) moves),
     list_to_set (map (push start_fen) moves)).
Proof.
  unfold first_level. rewrite first_level_from. f_equal; set_solver.
Qed.

Lemma get_maia_distribution_parses fen :
  parses fen →
  get_maia_distribution fen = (Ok (fen, maia_distribution fen), [MaiaLaunch fen]).
Proof.
  intros Hp. rewrite get_maia_distribution_run.
  unfold parses, maia_distribution in *.
  by destruct (read_analysis (lc0_analysis fen) []).
Qed.

Lemma call_maia_loop_run fens d :
  Forall parses fens →
  call_maia_loop fens d = (Ok (distributions_of fens d), map MaiaLaunch fens).
Proof.
  intros Hp. revert d. induction Hp as [|fen fens Hf _ IH]; intros d; [done|].
  cbn [call_maia_loop].
  rewrite (bind_ok _ _ _ _ (get_maia_distribution_parses fen Hf)).
  rewrite IH. reflexivity.
Qed.

Lemma gather_run fens :
  Forall parses fens →
  gather fens
  = (Ok (map (λ fen, (fen, maia_distribution fen)) fens), map MaiaLaunch fens).
Proof.
  induction 1 as [|fen fens Hf _ IH]; [done|].
  cbn [gather]. unfold get_maia_distribution_async.
  rewrite (bind_ok _ _ _ _ (get_maia_distribution_parses fen Hf)).
  rewrite (bind_ok _ _ _ _ IH). cbn. by rewrite app_nil_r.
Qed.

(** Sequential and concurrent mode ask lc0 for the same positions and
    build the same dict. *)
Lemma call_maia_set (parallel : bool) (S : gset Fen) :
  Forall parses (elements S) →
  (if parallel then call_maia_parallel (elements S) else call_maia (elements S))
  = (Ok (distributions_of (elements S) ∅), map MaiaLaunch (elements S)).
Proof.
  intros Hp. destruct parallel.
  - unfold call_maia_parallel. rewrite list_to_set_elements_L.
    rewrite (bind_ok _ _ _ _ (gather_run _ Hp)). cbn. rewrite app_nil_r.
    do 2 f_equal. unfold distributions_of.
    by rewrite (foldl_fmap (λ d '(fen, distribution), <[fen := distribution]> d)).
  - by apply call_maia_loop_run.
Qed.

Lemma distributions_of_lookup fens d fen :
  distributions_of fens d !! fen
  = if decide (fen ∈ fens) then Some (maia_distribution fen) else d !! fen.
Proof.
  revert d. induction fens as [|f fens IH]; intros d; cbn.
  { by rewrite decide_False by apply not_elem_of_nil. }
  unfold distributions_of in *. cbn. rewrite IH.
  destruct (decide (fen ∈ fens)) as [Hin|Hin].
  { rewrite decide_True; [done|]. by apply list_elem_of_further. }
  destruct (decide (f = fen)) as [->|Hne].
  - rewrite lookup_insert_eq. rewrite decide_True; [done|]. apply list_elem_of_here.
  - rewrite lookup_insert_ne by done. rewrite decide_False; [done|].
    intros [?|?]%elem_of_cons; congruence.
Qed.

Lemma eval_all_run fens e :
  eval_all fens e = (Ok (evaluations_of fens e), map StockfishEvaluation fens).
Proof.
  revert e. induction fens as [|fen fens IH]; intros e; [done|].
  cbn [eval_all]. rewrite (bind_ok _ _ _ _ (get_stockfish_eval_run fen)).
  rewrite IH. reflexivity.
Qed.

Lemma evaluations_of_lookup fens e fen :
  evaluations_of fens e !! fen
  = if decide (fen ∈ fens) then Some (scaled (stockfish_get_evaluation fen))
    else e !! fen.
Proof.
  revert e. induction fens as [|f fens IH]; intros e; cbn.
  { by rewrite decide_False by apply not_elem_of_nil. }
  unfold evaluations_of in *. cbn. rewrite IH.
  destruct (decide (fen ∈ fens)) as [Hin|Hin].
  { rewrite decide_True; [done|]. by apply list_elem_of_further. }
  destruct (decide (f = fen)) as [->|Hne].
  - rewrite lookup_insert_eq. rewrite decide_True; [done|]. apply list_elem_of_here.
  - rewrite lookup_insert_ne by done. rewrite decide_False; [done|].
    intros [?|?]%elem_of_cons; congruence.
Qed.

Lemma move_from_uci_decodes (x : string * F) :
  decodes x → ∃ m, from_uci x.1 = Some m ∧ move_from_uci x.1 = Ok m.
Proof.
  unfold decodes, move_from_uci. destruct (from_uci x.1); [eauto|done].
Qed.

Lemma add_followups_spec fen (dist : Distribution F) (S0 : gset Fen) :
  Forall decodes dist →
  ∃ S1, add_followups fen dist S0 = Ok S1 ∧ S0 ⊆ S1 ∧
        ∀ (x : string * F) m, x ∈ dist → from_uci x.1 = Some m → push fen m ∈ S1.
Proof.
  intros Hd. revert S0. induction Hd as [|[mv pct] dist Hx _ IH]; intros S0; cbn.
  { exists S0. split; [done|]. split; [done|].
    intros x m Hin. by apply elem_of_nil in Hin. }
  destruct (move_from_uci_decodes _ Hx) as (m & Hm & Hok). cbn in Hm, Hok.
  rewrite Hok. cbn.
  destruct (IH (S0 ∪ {[push fen m]})) as (S1 & -> & Hsub & Hall).
  exists S1. split; [done|]. split; [set_solver|].
  intros x m' [->|Hin]%elem_of_cons Hm'.
  - cbn in Hm'. assert (m' = m) as -> by congruence. set_solver.
  - by eapply Hall.
Qed.

Lemma gather_stockfish_fens_spec (items : list (Fen * Distribution F))
    (S0 : gset Fen) :
  Forall (λ it, Forall decodes it.2) items →
  ∃ S1, gather_stockfish_fens items S0 = Ok S1 ∧ S0 ⊆ S1 ∧
        ∀ fen dist, (fen, dist) ∈ items →
          fen ∈ S1
          ∧ ∀ (x : string * F) m, x ∈ dist → from_uci x.1 = Some m → push fen m ∈ S1.
Proof.
  intros Hd. revert S0.
  induction Hd as [|[fen dist] items Hx _ IH]; intros S0; cbn.
  { exists S0. split; [done|]. split; [done|].
    intros fen dist Hin. by apply elem_of_nil in Hin. }
  destruct (add_followups_spec fen dist (S0 ∪ {[fen]}) Hx) as (S' & -> & Hsub & Hall).
  cbn. destruct (IH S') as (S1 & -> & Hsub' & Hall').
  exists S1. split; [done|]. split; [set_solver|].
  intros fen' dist' [Heq|Hin]%elem_of_cons.
  - injection Heq as -> ->. split; [set_solver|].
    intros x m Hin Hm. apply Hsub'. by eapply Hall.
  - by apply Hall'.
Qed.

Lemma move_results_loop_spec fen1 E dist acc :
  Forall (cached fen1 E) dist →
  move_results_loop fen1 E dist acc = Ok (acc ++ map (weighted fen1) dist).
Proof.
  intros Hc. revert acc. induction Hc as [|[mv pct] dist Hx _ IH]; intros acc; cbn.
  { by rewrite app_nil_r. }
  unfold cached in Hx. unfold weighted at 1, move_from_uci, evaluation.
  cbn in *. destruct (from_uci mv) as [m|]; [|done]. cbn.
  unfold py_getitem. rewrite Hx.
  destruct (scaled (stockfish_get_evaluation (push fen1 m))) as [val mate].
  cbn. rewrite IH. by rewrite <- app_assoc.
Qed.

Lemma expected_score_run fen1 E dist :
  Forall (cached fen1 E) dist →
  expected_score fen1 E dist = Ok (py_sum (map (weighted fen1) dist)).
Proof.
  intros Hc. unfold expected_score.
  by rewrite (move_results_loop_spec _ _ _ [] Hc).
Qed.


(** *** The fold that keeps the better score *)

Section Best.
Context `{!OrderLaws F}.







End Best.

(** *** The run of a decision *)

Lemma first_level_parses fen moves :
  Forall parses (map (push fen) moves) →
  Forall parses (elements (list_to_set (map (push fen) moves) : gset Fen)).
Proof.
  rewrite !Forall_forall. intros Hp f Hf. apply Hp.
  by apply elem_of_elements, elem_of_list_to_set in Hf.
Qed.

(** Past the root shortcut a decision asks Stockfish for the root, then
    lc0 once for each first-level position, and goes on with the dict of
    their distributions. *)
Lemma decision_unfold parallel fen m0 ms :
  legal_moves fen = m0 :: ms →
  mate_for (turn fen) fen = false →
  Forall parses (map (push fen) (m0 :: ms)) →
  let S : gset Fen := list_to_set (map (push fen) (m0 :: ms)) in
  let D := distributions_of (elements S) ∅ in
  let rest : M Move :=
    stockfish_fens ← lift (gather_stockfish_fens (map_to_list D) S);
    stockfish_evals ← eval_all (elements stockfish_fens) ∅;
    lift (choose fen (turn fen) D stockfish_evals (m0 :: ms) m0
            (initial_score (turn fen))) in
  get_antimaia_move parallel fen
  = (rest.1, StockfishEvaluation fen :: map MaiaLaunch (elements S) ++ rest.2).
Proof.
  intros Hm Hmate Hp S D rest. unfold get_antimaia_move, mate_for in *.
  rewrite Hm, bind_lift. cbn [py_index lookup list_lookup].
  rewrite (bind_ok _ _ _ _ (get_stockfish_eval_run fen)).
  destruct (scaled (stockfish_get_evaluation fen)) as [val mate].
  rewrite Hmate, first_level_sets.
  rewrite (bind_ok _ _ _ _ (call_maia_set parallel _ (first_level_parses _ _ Hp))).
  reflexivity.
Qed.

Lemma decision_log parallel fen :
  legal_moves fen ≠ [] →
  mate_for (turn fen) fen = false →
  Forall parses (map (push fen) (legal_moves fen)) →
  ∃ r fens,
    get_antimaia_move parallel fen
    = (r, StockfishEvaluation fen
          :: map MaiaLaunch
               (elements (list_to_set (map (push fen) (legal_moves fen)) : gset Fen))
          ++ map StockfishEvaluation fens).
Proof.
  intros Hne Hmate Hp. destruct (legal_moves fen) as [|m0 ms] eqn:Hm; [done|].
  rewrite (decision_unfold parallel fen m0 ms Hm Hmate Hp). cbn zeta.
  rewrite bind_lift.
  destruct (gather_stockfish_fens _ _) as [S1|e].
  - rewrite (bind_ok _ _ _ _ (eval_all_run _ _)). cbn [fst snd lift].
    rewrite app_nil_r. by eexists _, _.
  - by exists (Raise e), [].
Qed.


(** *** Counting the launches of lc0 *)

Lemma launches_app fen (l1 l2 : list Event) :
  launches fen (l1 ++ l2) = (launches fen l1 + launches fen l2)%nat.
Proof. unfold launches. by rewrite filter_app, length_app. Qed.

Lemma launches_evaluations fen (fens : list Fen) :
  launches fen (map StockfishEvaluation fens) = 0%nat.
Proof.
  unfold launches. induction fens as [|f fens IH]; [done|]. cbn [map].
  by rewrite filter_cons_False.
Qed.

Lemma launches_absent fen (fens : list Fen) :
  fen ∉ fens → launches fen (map MaiaLaunch fens) = 0%nat.
Proof.
  unfold launches. induction fens as [|f fens IH]; [done|]. cbn [map].
  intros Hnin. apply not_elem_of_cons in Hnin as [Hne Hnin].
  rewrite filter_cons_False by congruence. by apply IH.
Qed.

Lemma launches_once fen (fens : list Fen) :
  NoDup fens → fen ∈ fens → launches fen (map MaiaLaunch fens) = 1%nat.
Proof.
  unfold launches. induction 1 as [|f fens Hnin Hnd IH]; intros Hin.
  { by apply elem_of_nil in Hin. }
  cbn [map]. apply elem_of_cons in Hin as [->|Hin].
  - rewrite filter_cons_True by done. cbn [length].
    f_equal. by apply (launches_absent f fens).
  - rewrite filter_cons_False; [by apply IH|].
    intros [= ->]. done.
Qed.

(** C7.  In a decision that gets past the root evaluation, lc0 is
    launched exactly once for the position reached by each legal move,
    in sequential and in concurrent mode alike: both iterate over the
    set of first-level positions, so two moves that reach the same
    position share one launch. *)
Theorem maia_asked_once parallel fen m :
  mate_for (turn fen) fen = false →
  Forall parses (map (push fen) (legal_moves fen)) →
  m ∈ legal_moves fen →
  launches (push fen m) (get_antimaia_move parallel fen).2 = 1%nat.
Proof.
  intros Hmate Hp Hin.
  destruct (decision_log parallel fen) as (r & fens & ->); [|done..|].
  { intros Hnil. rewrite Hnil in Hin. by apply elem_of_nil in Hin. }
  cbn [snd]. change (?x :: ?l) with ([x] ++ l).
  rewrite !launches_app, launches_evaluations.
  rewrite launches_once.
  - unfold launches. by rewrite filter_cons_False.
  - apply NoDup_elements.
  - apply elem_of_elements, elem_of_list_to_set, list_elem_of_fmap. by exists m.
Qed.



End Decision.

(** ** The expected value of a candidate *)

Section Expectation.
Context {F : Type} `{!PyFloat F} {Move : Type} `{!Rules Move} `{!Engines F}.
Context `{!AddLaws F}.

Lemma foldl_fadd_shift (a b : F) (l : list F) :
  foldl fadd (fadd a b) l = fadd a (foldl fadd b l).
Proof.
  revert b. induction l as [|x l IH]; intros b; cbn; [done|].
  by rewrite <- fadd_assoc, IH.
Qed.

Lemma py_sum_cons (x : F) (l : list F) : py_sum (x :: l) = fadd x (py_sum l).
Proof.
  unfold py_sum. cbn. by rewrite (fadd_comm (of_int 0) x), foldl_fadd_shift.
Qed.

(** With exact addition Python's left-to-right [sum] is the sum. *)
Lemma py_sum_foldr (l : list F) : py_sum l = foldr fadd (of_int 0) l.
Proof.
  induction l as [|x l IH]; [done|]. by rewrite py_sum_cons, IH.
Qed.

Lemma py_sum_perm (l l' : list F) : l ≡ₚ l' → py_sum l = py_sum l'.
Proof.
  induction 1 as [|x l l' _ IH|x y l|l l' l'' _ IH1 _ IH2].
  - done.
  - by rewrite !py_sum_cons, IH.
  - rewrite !py_sum_cons, !fadd_assoc. by rewrite (fadd_comm y x).
  - by rewrite IH1.
Qed.

End Expectation.

(** C8.  The score of a candidate whose follow-up positions are in the
    cache is Python's sum, taken from 0 and from left to right in the
    order of the distribution, of the evaluation of the follow-up
    position times the likelihood as reported.  Where addition is exact
    (associative and commutative) this is the sum of the products, the
    same for every permutation of the pairs. *)
Theorem expected_score_weighted_sum {F : Type} `{!PyFloat F} {Move : Type}
    `{!Rules Move} `{!Engines F} fen1 E (dist : Distribution F) :
  Forall (cached fen1 E) dist →
  expected_score fen1 E dist = Ok (foldl fadd (of_int 0) (map (weighted fen1) dist))
  ∧ (AddLaws F →
     expected_score fen1 E dist = Ok (foldr fadd (of_int 0) (map (weighted fen1) dist))
     ∧ ∀ dist', dist ≡ₚ dist' →
         expected_score fen1 E dist' = expected_score fen1 E dist).
Proof.
  intros Hc. split; [exact (expected_score_run _ _ _ Hc)|].
  intros Hlaws. split.
  - by rewrite (expected_score_run _ _ _ Hc), py_sum_foldr.
  - intros dist' Hperm.
    assert (Forall (cached fen1 E) dist') as Hc' by (by rewrite <- Hperm).
    rewrite (expected_score_run _ _ _ Hc), (expected_score_run _ _ _ Hc').
    f_equal. apply py_sum_perm. by apply Permutation_map.
Qed.

(** ** The statements on the examples *)

#[export] Instance xint_add_laws : @AddLaws Example.xint Example.xint_float.
Proof.
  split.
  - intros [| |] [| |]; cbn; try done. f_equal. lia.
  - intros [| |] [| |] [| |]; cbn; try done. f_equal. lia.
Qed.

#[export] Instance xint_order_laws : @OrderLaws Example.xint Example.xint_float.
Proof.
  split.
  - intros [|a|] [|b|]; cbn; try done. lia.
  - intros [|a|] [|b|] [|c|]; cbn; try done. lia.
  - by intros [| |].
  - by intros [| |].
Qed.

(** Computes the list of a [Forall] and proves it element by element. *)
Ltac forall_by tac :=
  match goal with
  | |- Forall ?P ?l =>
      let l' := eval vm_compute in l in
      change (Forall P l');
      repeat first [apply Forall_nil_2 | apply Forall_cons_2; [tac|]]
  end.


(** C7 on the example: the moves e2e4 and d2d4 reach the same position,
    and lc0 is launched on it once. *)
Lemma maia_asked_once_witness :
  push (Rules := Worlds.fork_rules) "r" "d2d4"
  = push (Rules := Worlds.fork_rules) "r" "e2e4"
  ∧ launches (push (Rules := Worlds.fork_rules) "r" "e2e4")
      (get_antimaia_move (PyFloat0 := Example.xint_float)
         (Rules0 := Worlds.fork_rules) (Engines0 := Worlds.fork_engines)
         true "r").2 = 1%nat.
Proof.
  split; [vm_compute; reflexivity|].
  apply (maia_asked_once (PyFloat0 := Example.xint_float)
           (Rules0 := Worlds.fork_rules) (Engines0 := Worlds.fork_engines)).
  - vm_compute. reflexivity.
  - forall_by ltac:(vm_compute; exact I).
  - vm_compute. left.
Defined.

(** C8 on the example: over the integers the two pairs of position
    ["b"] give 10 * 60 + 50 * 50, in either order. *)
Lemma expected_score_weighted_sum_witness :
  let E : gmap Fen (Z * bool) :=
    evaluations_of (Engines0 := Worlds.fork_engines) ["b1"; "b2"] ∅ in
  let dist := [("d7d5", Example.Fin 60); ("e7e5", Example.Fin 50)] in
  expected_score (PyFloat0 := Example.xint_float) (Rules0 := Worlds.fork_rules)
    "b" E dist = Ok (Example.Fin 3100)
  ∧ expected_score (PyFloat0 := Example.xint_float) (Rules0 := Worlds.fork_rules)
      "b" E (reverse dist)
    = expected_score (PyFloat0 := Example.xint_float) (Rules0 := Worlds.fork_rules)
        "b" E dist.
Proof.
  intros E dist.
  destruct (expected_score_weighted_sum (PyFloat0 := Example.xint_float)
              (Rules0 := Worlds.fork_rules) (Engines0 := Worlds.fork_engines)
              "b" E dist) as [Hsum Hexact].
  { forall_by ltac:(vm_compute; reflexivity). }
  destruct (Hexact xint_add_laws) as [_ Hperm].
  split.
  - rewrite Hsum. vm_compute. reflexivity.
  - apply Hperm. apply Permutation_swap.
Defined.

(** C8 fails for Python's floats: the three replies are worth
    0.1 + 0.2 + 0.3 = 0.6000000000000001 in the order in which lc0 lists
    them, and 0.3 + 0.2 + 0.1 = 0.6 in the descending order in which the
    selector holds them. *)
Lemma expected_score_order_dependent :
  let E : gmap Fen (Z * bool) :=
    evaluations_of (Engines0 := Worlds.replies_engines) ["b1"; "b2"; "b3"] ∅ in
  read_analysis (PyFloat0 := Example.binary64_float)
    (lc0_analysis (Engines := Worlds.replies_engines) "b") []
  = Ok Worlds.replies
  ∧ maia_distribution (PyFloat0 := Example.binary64_float)
      (Engines0 := Worlds.replies_engines) "b" = reverse Worlds.replies
  ∧ Forall (cached (Rules0 := Worlds.replies_rules)
              (Engines0 := Worlds.replies_engines) "b" E) Worlds.replies
  ∧ Worlds.replies ≡ₚ reverse Worlds.replies
  ∧ ∃ x y,
      expected_score (PyFloat0 := Example.binary64_float)
        (Rules0 := Worlds.replies_rules) "b" E Worlds.replies = Ok x
      ∧ expected_score (PyFloat0 := Example.binary64_float)
          (Rules0 := Worlds.replies_rules) "b" E (reverse Worlds.replies) = Ok y
      ∧ PrimFloat.ltb y x = true.
Proof.
  intros E.
  split; [vm_compute; reflexivity|].
  split; [vm_compute; reflexivity|].
  split; [forall_by ltac:(vm_compute; reflexivity)|].
  split; [by rewrite reverse_Permutation|].
  eexists _, _. split; [vm_compute; reflexivity|].
  split; [vm_compute; reflexivity|]. vm_compute. reflexivity.
Qed.



(** * Further properties *)

(** ** Python's split and join *)

Lemma append_assoc (a b c : string) : (a +:+ b) +:+ c = a +:+ (b +:+ c).
Proof.
  induction a as [|x a IH]; [done|].
  change (String x ((a +:+ b) +:+ c) = String x (a +:+ (b +:+ c))).
  by rewrite IH.
Qed.

Lemma join_fold (sep a p : string) (ps : list string) :
  foldl (λ acc q, acc +:+ sep +:+ q) (a +:+ p) ps
  = a +:+ foldl (λ acc q, acc +:+ sep +:+ q) p ps.
Proof.
  revert p. induction ps as [|q ps IH]; intros p; cbn [foldl]; [done|].
  by rewrite <- IH, append_assoc.
Qed.

Lemma join_cons (sep p q : string) (ps : list string) :
  join sep (p :: q :: ps) = p +:+ sep +:+ join sep (q :: ps).
Proof. cbn [join foldl]. by rewrite !join_fold. Qed.

Lemma join_head (sep : string) (c : ascii) (p : string) (ps : list string) :
  join sep (String c p :: ps) = String c (join sep (p :: ps)).
Proof. cbn [join]. apply (join_fold sep (String c "") p ps). Qed.

Lemma prefix_append (sep s : string) :
  String.prefix sep s = true → ∃ r, s = sep +:+ r.
Proof.
  revert s. induction sep as [|a sep IH]; intros s; [by exists s|].
  destruct s as [|b s]; cbn; [done|].
  destruct (Ascii.ascii_dec a b) as [->|]; [|done].
  intros [r ->]%IH. by exists r.
Qed.

Lemma split_from_skip (sep x r : string) :
  split_from sep (String.length x) (x +:+ r) = split_from sep 0 r.
Proof. induction x as [|c x IH]; [done|]. exact IH. Qed.

Lemma length_append (a b : string) :
  String.length (a +:+ b) = (String.length a + String.length b)%nat.
Proof.
  induction a as [|c a IH]; [done|].
  change (S (String.length (a +:+ b)) = S (String.length a + String.length b)).
  by rewrite IH.
Qed.

Lemma join_split_bounded (sep : string) (n : nat) : ∀ s,
  sep ≠ "" → (String.length s ≤ n)%nat → join sep (split sep s) = s.
Proof.
  unfold split. induction n as [|n IH]; intros s Hsep Hlen.
  { destruct s; [done|]. cbn in Hlen. lia. }
  destruct s as [|c s]; [done|]. cbn in Hlen. cbn [split_from].
  destruct (String.prefix sep (String c s)) eqn:Hp.
  - destruct (prefix_append _ _ Hp) as [r Hr].
    destruct sep as [|a sep]; [done|]. injection Hr as -> ->.
    cbn [String.length Nat.pred]. rewrite split_from_skip.
    destruct (split_from (String a sep) 0 r) as [|p ps] eqn:Hs.
    { by apply split_from_nonempty in Hs. }
    rewrite join_cons, <- Hs, IH; [done|done|].
    rewrite length_append in Hlen. lia.
  - destruct (split_from sep 0 s) as [|p ps] eqn:Hs.
    { by apply split_from_nonempty in Hs. }
    rewrite join_head, <- Hs, IH; [done|done|lia].
Qed.

(** Joining the pieces of a split with the separator gives the string
    back. *)
Lemma join_split (sep s : string) : sep ≠ "" → join sep (split sep s) = s.
Proof. intros Hsep. by apply (join_split_bounded sep (String.length s)). Qed.

Lemma join_snoc (sep : string) (ps : list string) (q : string) :
  ps ≠ [] → join sep (ps ++ [q]) = join sep ps +:+ sep +:+ q.
Proof.
  destruct ps as [|p ps]; [done|]. intros _. cbn [join app].
  by rewrite foldl_app.
Qed.

Lemma split_space (c : ascii) (s : string) :
  split " " (String c s)
  = if decide (c = " "%char) then "" :: split " " s
    else match split " " s with
         | p :: ps => String c p :: ps
         | [] => [String c ""]
         end.
Proof.
  unfold split. cbn [split_from String.prefix].
  destruct (Ascii.ascii_dec " " c) as [<-|Hne].
  - rewrite decide_True by done. by destruct s.
  - by rewrite decide_False by congruence.
Qed.

(** [''.join(s.split(' '))] is the string without its spaces. *)
Lemma join_split_space (s : string) : join "" (split " " s) = remove_spaces s.
Proof.
  induction s as [|c s IH]; [done|]. rewrite split_space. cbn [remove_spaces].
  destruct (decide (c = " "%char)) as [->|Hne].
  - destruct (split " " s) as [|p ps] eqn:Hs.
    { by apply split_from_nonempty in Hs. }
    by rewrite join_cons.
  - destruct (split " " s) as [|p ps] eqn:Hs.
    { by apply split_from_nonempty in Hs. }
    by rewrite join_head, IH.
Qed.

Lemma remove_spaces_idemp (s : string) :
  remove_spaces (remove_spaces s) = remove_spaces s.
Proof.
  induction s as [|c s IH]; [done|]. cbn.
  destruct (decide (c = " "%char)); [done|]. cbn.
  rewrite decide_False by done. by rewrite IH.
Qed.

Section Spaces.
Context {F : Type} `{!PyFloat F}.

(** X1.  [_parse_info] reads its line with every space removed: two
    lines that differ only in their spaces give the same move and
    likelihood, or the same exception. *)
Theorem parse_info_ignores_spaces (s t : string) :
  remove_spaces s = remove_spaces t → parse_info s = parse_info (F := F) t.
Proof.
  intros Heq. unfold parse_info. by rewrite !join_split_space, Heq.
Qed.

End Spaces.

(** ** More on the stream of lc0 *)

Section StreamMore.
Context {F : Type} `{!PyFloat F} {Move : Type} `{!Rules Move} `{!Engines F}.

Lemma parse_info_errors (s : string) e :
  parse_info (F := F) s = Raise e → e = IndexError ∨ e = ValueError.
Proof.
  unfold parse_info, py_index. intros Hp.
  repeat (case_match; simplify_eq/=); auto.
Qed.

Lemma read_analysis_errors analysis (infos : Distribution F) e :
  read_analysis analysis infos = Raise e → e = IndexError ∨ e = ValueError.
Proof.
  revert infos. induction analysis as [|info analysis IH]; intros infos; cbn; [done|].
  destruct (info_string info) as [s|]; [|apply IH].
  destruct (parse_info s) as [[mv pct]|e'] eqn:Hp; cbn.
  - destruct (decide (mv ≠ "node")); apply IH.
  - intros [= <-]. by apply (parse_info_errors s).
Qed.

Lemma read_analysis_ok_kept analysis (infos r : Distribution F) :
  read_analysis analysis infos = Ok r → r = infos ++ kept analysis.
Proof.
  revert infos. induction analysis as [|info analysis IH]; intros infos; cbn.
  { intros [= <-]. by rewrite app_nil_r. }
  destruct (info_string info) as [s|]; [|apply IH].
  destruct (parse_info s) as [[mv pct]|e'] eqn:Hp; cbn; [|done].
  destruct (decide (mv ≠ "node")); [|apply IH].
  intros ->%IH. by rewrite <- app_assoc.
Qed.

Lemma kept_no_node analysis :
  Forall (λ x : string * F, x.1 ≠ "node") (kept analysis).
Proof.
  induction analysis as [|info analysis IH]; [constructor|].
  unfold kept. cbn [flat_map]. apply Forall_app. split; [|exact IH].
  destruct (info_string info) as [s|]; [|constructor].
  destruct (parse_info s) as [[mv pct]|e']; [|constructor].
  destruct (decide (mv ≠ "node")); repeat constructor; done.
Qed.

(** X2.  A query that succeeds launches lc0 once, on the position asked
    for, and returns that position with the kept lines of the stream in
    some order; the move ['node'] is never among them. *)
Theorem distribution_of_stream fen f (d : Distribution F) log :
  get_maia_distribution fen = (Ok (f, d), log) →
  f = fen ∧ log = [MaiaLaunch fen]
  ∧ d ≡ₚ kept (lc0_analysis fen)
  ∧ Forall (λ x, x.1 ≠ "node") d.
Proof.
  rewrite get_maia_distribution_run.
  destruct (read_analysis (lc0_analysis fen) []) as [infos|e] eqn:Hr; [|done].
  intros [= <- <- <-]. apply read_analysis_ok_kept in Hr. cbn in Hr. subst infos.
  split; [done|]. split; [done|]. split; [apply sorted_desc_perm|].
  rewrite sorted_desc_perm. apply kept_no_node.
Qed.




(** X5.  The engine's answer is a mate for White exactly when it is a
    mate with a positive distance, and for Black with a negative one; a
    mate at distance 0 is a mate for neither side. *)
Theorem mate_for_iff white fen :
  mate_for white fen = true
  ↔ ev_type (stockfish_get_evaluation fen) = Mate
    ∧ (if white then 0 < ev_value (stockfish_get_evaluation fen)
       else ev_value (stockfish_get_evaluation fen) < 0).
Proof.
  unfold mate_for, scaled, ideal_move, checkmate_weight.
  destruct (stockfish_get_evaluation fen) as [[|] v]; cbn.
  { split; [done|]. by intros [? _]. }
  destruct white; cbn.
  - destruct (0 <? v * (10 * 100)) eqn:Hv; cbn.
    + split; [|done]. intros _. split; [done|]. apply Z.ltb_lt in Hv. lia.
    + rewrite andb_false_r. split; [done|]. intros [_ Hpos].
      apply Z.ltb_ge in Hv. lia.
  - rewrite andb_false_r, andb_true_r.
    destruct (v * (10 * 100) <? 0) eqn:Hv.
    + split; [|done]. intros _. split; [done|]. apply Z.ltb_lt in Hv. lia.
    + split; [done|]. intros [_ Hneg]. apply Z.ltb_ge in Hv. lia.
Qed.

End StreamMore.

(** ** More on saving *)

Lemma split_slash (c : ascii) (s : string) :
  split "/" (String c s)
  = if decide (c = "/"%char) then "" :: split "/" s
    else match split "/" s with
         | p :: ps => String c p :: ps
         | [] => [String c ""]
         end.
Proof.
  unfold split. cbn [split_from String.prefix].
  destruct (Ascii.ascii_dec "/" c) as [<-|Hne].
  - rewrite decide_True by done. by destruct s.
  - by rewrite decide_False by congruence.
Qed.

Lemma split_cases (s : string) : ∃ p ps, split "/" s = p :: ps.
Proof.
  destruct (split "/" s) as [|p ps] eqn:Hs; [|by eauto].
  by apply split_from_nonempty in Hs.
Qed.

(** A piece of a split has no separator in it. *)
Lemma split_piece (s : string) : Forall (λ c, split "/" c = [c]) (split "/" s).
Proof.
  induction s as [|c s IH]; [by repeat constructor|].
  rewrite split_slash. destruct (decide (c = "/"%char)) as [->|Hne].
  - by constructor.
  - destruct (split_cases s) as (p & ps & Hs). rewrite Hs in IH |- *.
    apply Forall_cons in IH as [Hp Hps]. constructor; [|done].
    rewrite split_slash, decide_False by done. by rewrite Hp.
Qed.

Lemma split_append_slash (a b : string) :
  split "/" (a +:+ "/" +:+ b) = split "/" a ++ split "/" b.
Proof.
  induction a as [|c a IH].
  - change ("" +:+ "/" +:+ b) with (String "/" b).
    by rewrite split_slash, decide_True.
  - change (String c a +:+ "/" +:+ b) with (String c (a +:+ "/" +:+ b)).
    rewrite !split_slash, IH. destruct (decide (c = "/"%char)); [done|].
    destruct (split_cases a) as (p & ps & ->). done.
Qed.

(** The directory part of a path splits into the parts of the path but
    the last. *)

Lemma split_snoc (s : string) : ∃ l c, split "/" s = l ++ [c].
Proof.
  destruct (split_cases s) as (p & ps & ->).
  assert (p :: ps ≠ []) as Hne by done.
  revert Hne. generalize (p :: ps). intros cs.
  destruct cs as [|c l _] using rev_ind; [done|by eauto].
Qed.

Lemma split_dirname (path : string) :
  removelast (split "/" path) ≠ [] →
  split "/" (join "/" (removelast (split "/" path))) = removelast (split "/" path).
Proof.
  intros Hne. pose proof (split_piece path) as Hp.
  pose proof (join_split "/" path ltac:(done)) as Hj.
  destruct (split_snoc path) as (l & c & Hs).
  rewrite Hs in Hne, Hp, Hj |- *. rewrite removelast_last in Hne |- *.
  apply Forall_app in Hp as [_ Hc]. apply Forall_cons in Hc as [Hc _].
  rewrite join_snoc in Hj by done.
  pose proof (split_append_slash (join "/" l) c) as Happ.
  rewrite Hj, Hs, Hc in Happ. by apply app_inj_tail in Happ as [<- _].
Qed.

Lemma has_nul_split (s : string) : has_nul s = existsb has_nul (split "/" s).
Proof.
  induction s as [|c s IH]; [done|].
  rewrite split_slash. cbn [has_nul]. destruct (decide (c = "/"%char)) as [->|Hne].
  - cbn. by rewrite IH.
  - destruct (split_cases s) as (p & ps & Hs). rewrite Hs in IH |- *.
    cbn [existsb has_nul] in *. by rewrite IH, orb_assoc.
Qed.

Lemma has_nul_append (a b : string) : has_nul (a +:+ b) = has_nul a || has_nul b.
Proof.
  induction a as [|c a IH]; [done|].
  change (String c a +:+ b) with (String c (a +:+ b)). cbn [has_nul].
  by rewrite IH, orb_assoc.
Qed.

Lemma has_nul_join (l : list string) : has_nul (join "/" l) = existsb has_nul l.
Proof.
  induction l as [|p [|q l] IH]; [done|cbn; by rewrite orb_false_r|].
  rewrite join_cons, !has_nul_append, IH. cbn. done.
Qed.

Lemma existsb_removelast {A} (f : A → bool) (l : list A) :
  existsb f l = false → existsb f (removelast l) = false.
Proof.
  induction l as [|x [|y l] IH]; [done|done|].
  cbn [existsb removelast] in *. intros [-> Hl]%orb_false_elim. by rewrite IH.
Qed.

Lemma existsb_filter {A} (f : A → bool) (P : A → Prop) `{!∀ x, Decision (P x)}
    (l : list A) :
  existsb f l = false → existsb f (filter P l) = false.
Proof.
  induction l as [|x l IH]; [done|]. cbn [existsb].
  intros [Hx Hl]%orb_false_elim. rewrite filter_cons.
  destruct (decide (P x)); [cbn; by rewrite Hx, IH|by apply IH].
Qed.

(** A path that starts with a slash has an empty first part. *)
Lemma prefix_slash_head (s : string) :
  String.prefix "/" s = true → head (split "/" s) = Some "".
Proof.
  destruct s as [|c s]; [done|]. cbn [String.prefix].
  destruct (Ascii.ascii_dec "/" c) as [<-|]; [|done].
  intros _. by rewrite split_slash, decide_True.
Qed.

(** ** The path walk *)

Lemma walk_app fs cur cs cs' :
  walk fs cur (cs ++ cs') = l ← walk fs cur cs; walk fs l cs'.
Proof.
  revert cur. induction cs as [|c cs IH]; intros cur; [done|].
  cbn [app walk]. destruct (enter fs cur c) as [cur'|e]; [apply IH|done].
Qed.

Lemma enter_name fs cur c :
  entry_name c → nodes fs !! cur = Some Directory → enter fs cur c = Ok (cur ++ [c]).
Proof.
  intros (_ & Hdot & Hup & _) Hd. unfold enter. rewrite Hd.
  by rewrite !decide_False.
Qed.

Lemma filter_all {A} (P : A → Prop) `{!∀ x, Decision (P x)} (l : list A) :
  Forall P l → filter P l = l.
Proof.
  induction 1 as [|x l Hx _ IH]; [done|].
  by rewrite filter_cons, decide_True, IH.
Qed.

(** Through directories, a path of names leads to the place it spells. *)
Lemma walk_names fs ps : ∀ base,
  Forall entry_name ps →
  (∀ k, (k < length ps)%nat → nodes fs !! (base ++ take k ps) = Some Directory) →
  walk fs base ps = Ok (base ++ ps).
Proof.
  induction ps as [|c ps IH]; intros base Hn Hd; [by rewrite app_nil_r|].
  apply Forall_cons in Hn as [Hc Hn]. cbn [walk].
  rewrite (enter_name _ _ _ Hc).
  2:{ specialize (Hd 0%nat ltac:(cbn; lia)). by rewrite app_nil_r in Hd. }
  cbn. rewrite (IH (base ++ [c]) Hn).
  - by rewrite <- app_assoc.
  - intros k Hk. rewrite <- app_assoc. apply (Hd (S k)). cbn. lia.
Qed.

Lemma no_file_at_cases fs l :
  no_file_at fs l → nodes fs !! l = Some Directory ∨ nodes fs !! l = None.
Proof. unfold no_file_at. destruct (nodes fs !! l) as [[|t]|]; by eauto. Qed.

(** Where no regular file is in the way, the walk ends or finds a
    directory missing. *)
Lemma walk_names_cases fs ps : ∀ base,
  Forall entry_name ps →
  (∀ k, (k < length ps)%nat → no_file_at fs (base ++ take k ps)) →
  (∀ k, (k < length ps)%nat → nodes fs !! (base ++ take k ps) = Some Directory)
  ∨ walk fs base ps = Raise FileNotFoundError.
Proof.
  induction ps as [|c ps IH]; intros base Hn Hf.
  { left. intros k Hk. cbn in Hk. lia. }
  apply Forall_cons in Hn as [Hc Hn].
  pose proof (Hf 0%nat ltac:(cbn; lia)) as H0. rewrite app_nil_r in H0.
  destruct (no_file_at_cases _ _ H0) as [Hd|Hnone].
  - destruct (IH (base ++ [c]) Hn) as [Hall|Hfail].
    + intros k Hk. rewrite <- app_assoc. apply (Hf (S k)). cbn. lia.
    + left. intros [|k] Hk; [by rewrite app_nil_r|].
      cbn [take]. rewrite cons_middle, app_assoc. apply Hall. cbn in Hk. lia.
    + right. cbn [walk]. by rewrite (enter_name _ _ _ Hc Hd).
  - right. cbn [walk]. unfold enter. by rewrite Hnone.
Qed.

Lemma names_no_nul (ps : list string) :
  Forall entry_name ps → existsb has_nul ps = false.
Proof.
  induction 1 as [|c ps (_ & _ & _ & Hc) _ IH]; [done|]. cbn. by rewrite Hc, IH.
Qed.

(** ** Making the directories *)

Lemma os_stat_names fs (anch : bool) ps :
  let base : list string := if anch then [] else cwd fs in
  Forall entry_name ps →
  (∀ k, (k < length ps)%nat → nodes fs !! (base ++ take k ps) = Some Directory) →
  os_stat fs {| anchored := anch; parts := ps |}
  = match nodes fs !! (base ++ ps) with
    | Some n => Ok n
    | None => Raise FileNotFoundError
    end.
Proof.
  intros base Hn Hd. unfold os_stat, origin. cbn [parts anchored].
  rewrite (names_no_nul _ Hn). fold base. by rewrite (walk_names _ _ _ Hn Hd).
Qed.

Lemma mkdir_exist_ok_names fs (anch : bool) ps c :
  let base : list string := if anch then [] else cwd fs in
  Forall entry_name (ps ++ [c]) →
  (∀ k, (k ≤ length ps)%nat → nodes fs !! (base ++ take k ps) = Some Directory) →
  no_file_at fs (base ++ ps ++ [c]) →
  ∃ fs', mkdir_exist_ok fs {| anchored := anch; parts := ps ++ [c] |} = (Ok tt, fs')
    ∧ cwd fs' = cwd fs
    ∧ nodes fs' !! (base ++ ps ++ [c]) = Some Directory
    ∧ (∀ l, l ≠ base ++ ps ++ [c] → nodes fs' !! l = nodes fs !! l)
    ∧ (∀ l n, nodes fs !! l = Some n → nodes fs' !! l = Some n).
Proof.
  intros base Hn Hd Hf.
  pose proof Hn as [Hps Hc]%Forall_app. apply Forall_cons in Hc as [Hc _].
  unfold mkdir_exist_ok, os_mkdir, origin. cbn [parts anchored]. fold base.
  rewrite (names_no_nul _ Hn), removelast_last, last_snoc.
  rewrite (walk_names _ _ _ Hps) by (intros k Hk; apply Hd; lia).
  cbn [mbind Result_bind].
  pose proof (Hd (length ps) ltac:(lia)) as Hdir. rewrite firstn_all in Hdir.
  rewrite Hdir. destruct Hc as (_ & _ & Hup & _). rewrite decide_False by done.
  rewrite <- app_assoc.
  destruct (no_file_at_cases _ _ Hf) as [Ht|Ht]; rewrite Ht.
  - assert (path_is_dir fs {| anchored := anch; parts := ps ++ [c] |} = true) as ->.
    { unfold path_is_dir. rewrite os_stat_names; [fold base; by rewrite Ht|done|].
      intros k Hk. rewrite length_app in Hk. cbn in Hk. fold base.
      rewrite take_app_le by lia. apply Hd. lia. }
    cbn. exists fs. by eauto.
  - eexists. split; [done|]. cbn [cwd nodes]. split; [done|].
    split; [apply lookup_insert_eq|]. split.
    + intros l Hl. by apply lookup_insert_ne.
    + intros l n Hl. rewrite lookup_insert_ne; [done|]. intros <-. congruence.
Qed.

Lemma os_mkdir_missing fs (anch : bool) ps c :
  let base : list string := if anch then [] else cwd fs in
  Forall entry_name (ps ++ [c]) →
  (∀ k, (k ≤ length ps)%nat → no_file_at fs (base ++ take k ps)) →
  (∀ k, (k ≤ length ps)%nat → nodes fs !! (base ++ take k ps) = Some Directory)
  ∨ os_mkdir fs {| anchored := anch; parts := ps ++ [c] |} = Raise FileNotFoundError.
Proof.
  intros base Hn Hf. pose proof Hn as [Hps _]%Forall_app.
  unfold os_mkdir, origin. cbn [parts anchored]. fold base.
  rewrite (names_no_nul _ Hn), removelast_last.
  destruct (walk_names_cases fs ps base Hps) as [Hall|Hfail].
  { intros k Hk. apply Hf. lia. }
  - rewrite (walk_names _ _ _ Hps Hall). cbn [mbind Result_bind].
    pose proof (Hf (length ps) ltac:(lia)) as Hd. rewrite firstn_all in Hd.
    destruct (no_file_at_cases _ _ Hd) as [Hdir|Hnone].
    + left. intros k Hk. destruct (decide (k = length ps)) as [->|Hne].
      * by rewrite firstn_all.
      * apply Hall. lia.
    + right. by rewrite Hnone.
  - right. by rewrite Hfail.
Qed.

(** [mkdir(parents=True, exist_ok=True)] on a path of names with no
    regular file on it: every directory of the path is there afterwards,
    and nothing else is touched. *)
Lemma mkdir_from_names (anch : bool) ps : ∀ fs,
  let base : list string := if anch then [] else cwd fs in
  Forall entry_name ps →
  nodes fs !! base = Some Directory →
  (∀ k, (k ≤ length ps)%nat → no_file_at fs (base ++ take k ps)) →
  ∃ fs', mkdir_from fs anch (reverse ps) = (Ok tt, fs')
    ∧ cwd fs' = cwd fs
    ∧ (∀ k, (k ≤ length ps)%nat → nodes fs' !! (base ++ take k ps) = Some Directory)
    ∧ (∀ l, (∀ k, (k ≤ length ps)%nat → l ≠ base ++ take k ps) →
            nodes fs' !! l = nodes fs !! l)
    ∧ (∀ l n, nodes fs !! l = Some n → nodes fs' !! l = Some n).
Proof.
  induction ps as [|c ps IH] using rev_ind; intros fs base Hn Hbase Hf.
  - assert (os_mkdir fs {| anchored := anch; parts := [] |} = Raise FileExistsError)
      as Hmk.
    { unfold os_mkdir, origin. cbn. fold base. by rewrite Hbase. }
    assert (path_is_dir fs {| anchored := anch; parts := [] |} = true) as Hdir.
    { unfold path_is_dir, os_stat, origin. cbn. fold base. by rewrite Hbase. }
    exists fs. change (reverse []) with (@nil string). cbn [mkdir_from].
    change (reverse []) with (@nil string). rewrite Hmk.
    unfold mkdir_exist_ok. rewrite Hmk, Hdir. cbn.
    split; [done|]. split; [done|]. split; [|by eauto].
    intros k _. by rewrite take_nil, app_nil_r.
  - rewrite reverse_snoc. cbn [mkdir_from]. rewrite reverse_cons, reverse_involutive.
    pose proof Hn as [Hps _]%Forall_app.
    assert (∀ k, (k ≤ length ps)%nat → no_file_at fs (base ++ take k ps)) as Hf'.
    { intros k Hk. specialize (Hf k). rewrite length_app, take_app_le in Hf by lia.
      apply Hf. lia. }
    assert (no_file_at fs (base ++ ps ++ [c])) as Ht.
    { specialize (Hf (length (ps ++ [c])) ltac:(lia)). by rewrite firstn_all in Hf. }
    assert (∀ fs' : FS,
      cwd fs' = cwd fs →
      (∀ k, (k ≤ length ps)%nat → nodes fs' !! (base ++ take k ps) = Some Directory) →
      (∀ l, (∀ k, (k ≤ length ps)%nat → l ≠ base ++ take k ps) →
            nodes fs' !! l = nodes fs !! l) →
      (∀ l n, nodes fs !! l = Some n → nodes fs' !! l = Some n) →
      ∃ fs'', mkdir_exist_ok fs' {| anchored := anch; parts := ps ++ [c] |} = (Ok tt, fs'')
        ∧ cwd fs'' = cwd fs
        ∧ (∀ k, (k ≤ length (ps ++ [c]))%nat →
             nodes fs'' !! (base ++ take k (ps ++ [c])) = Some Directory)
        ∧ (∀ l, (∀ k, (k ≤ length (ps ++ [c]))%nat → l ≠ base ++ take k (ps ++ [c])) →
                nodes fs'' !! l = nodes fs !! l)
        ∧ (∀ l n, nodes fs !! l = Some n → nodes fs'' !! l = Some n)) as Hlast.
    { intros fs' Hcwd Hd Hframe Hkeep.
      assert (base = if anch then [] else cwd fs') as Hb by (subst base; by rewrite Hcwd).
      destruct (mkdir_exist_ok_names fs' anch ps c) as (fs'' & Hrun & Hc2 & Hnew & Hfr2 & Hk2).
      { done. }
      { rewrite <- Hb. exact Hd. }
      { rewrite <- Hb. unfold no_file_at. rewrite Hframe; [exact Ht|].
        intros k Hk Heq. apply app_inv_head in Heq.
        apply (f_equal length) in Heq. rewrite length_app, length_take in Heq.
        cbn in Heq. lia. }
      rewrite <- Hb in Hnew, Hfr2.
      exists fs''. split; [done|]. split; [congruence|]. split; [|split].
      - intros k Hk. rewrite length_app in Hk. cbn in Hk.
        destruct (decide (k ≤ length ps)%nat) as [Hle|Hgt].
        + rewrite take_app_le by done.
          by apply Hk2, Hd.
        + rewrite take_ge by (rewrite length_app; cbn; lia). done.
      - intros l Hl. rewrite Hfr2.
        + apply Hframe. intros k Hk. specialize (Hl k).
          rewrite length_app, take_app_le in Hl by done. apply Hl. lia.
        + specialize (Hl (length (ps ++ [c])) ltac:(lia)). by rewrite firstn_all in Hl.
      - intros l n Hl. by apply Hk2, Hkeep. }
    destruct (os_mkdir_missing fs anch ps c Hn Hf') as [Hd|Hfnf].
    + destruct (Hlast fs eq_refl Hd ltac:(done) ltac:(done))
        as (fs'' & Hrun & Hrest).
      exists fs''. split; [|exact Hrest].
      destruct (os_mkdir fs {| anchored := anch; parts := ps ++ [c] |}) as [fs2|e] eqn:E;
        [done|].
      destruct e; try done.
      unfold mkdir_exist_ok in Hrun. by rewrite E in Hrun.
    + rewrite Hfnf.
      destruct (IH fs Hps Hbase Hf') as (fs' & -> & Hcwd & Hd & Hframe & Hkeep).
      destruct (Hlast fs' Hcwd Hd Hframe Hkeep) as (fs'' & Hrun & Hrest).
      exists fs''. by split.
Qed.

(** ** Writing the file *)

Lemma write_file_ok fs path text fs1 :
  write_file fs path text = (Ok tt, fs1) →
  ∃ dir c,
    has_nul path = false
    ∧ walk fs (if String.prefix "/" path then [] else cwd fs)
        (removelast (filter (λ c, c ≠ "") (split "/" path))) = Ok dir
    ∧ nodes fs !! dir = Some Directory
    ∧ last (filter (λ c, c ≠ "") (split "/" path)) = Some c
    ∧ c ≠ "." ∧ c ≠ ".."
    ∧ nodes fs !! (dir ++ [c]) ≠ Some Directory
    ∧ fs1 = {| nodes := <[dir ++ [c] := RegularFile text]> (nodes fs); cwd := cwd fs |}.
Proof.
  unfold write_file. destruct (has_nul path); [done|].
  destruct (decide (path = "")); [done|]. cbn zeta.
  destruct (walk fs _ _) as [dir|e] eqn:Hw; [|done].
  destruct (nodes fs !! dir) as [[|t]|] eqn:Hd; [|done|done].
  destruct (last _) as [c|] eqn:Hl; [|done].
  destruct (decide (c = "." ∨ c = "..")) as [|Hc]; [done|].
  destruct (decide (last (split "/" path) = Some "")); [done|].
  destruct (nodes fs !! (dir ++ [c])) as [[|t]|] eqn:Ht; [done| |];
    intros [= <-]; exists dir, c; rewrite Ht; repeat split; try done; naive_solver.
Qed.

Lemma walk_drop_dots fs cs : ∀ cur l,
  walk fs cur cs = Ok l → walk fs cur (filter (λ c, c ≠ ".") cs) = Ok l.
Proof.
  induction cs as [|c cs IH]; intros cur l; [done|]. cbn [walk].
  destruct (enter fs cur c) as [cur'|e] eqn:He; [|done]. cbn [mbind Result_bind].
  intros Hw. rewrite filter_cons. destruct (decide (c ≠ ".")) as [Hc|Hc].
  - cbn [walk]. rewrite He. by apply IH.
  - apply dec_stable in Hc as ->. unfold enter in He.
    destruct (nodes fs !! cur) as [[|t]|]; [|done|done].
    rewrite decide_True in He by done. injection He as <-. by apply IH.
Qed.

Lemma walk_insert_file fs L t cs : ∀ cur l,
  nodes fs !! L ≠ Some Directory →
  walk fs cur cs = Ok l →
  walk {| nodes := <[L := RegularFile t]> (nodes fs); cwd := cwd fs |} cur cs = Ok l.
Proof.
  induction cs as [|c cs IH]; intros cur l HL; [done|]. cbn [walk].
  unfold enter. cbn [nodes].
  destruct (nodes fs !! cur) as [[|t']|] eqn:Hc; [|done|done].
  rewrite lookup_insert_ne by congruence. rewrite Hc. cbn [mbind Result_bind].
  by apply IH.
Qed.

Lemma filter_parts (l : list string) :
  filter (λ c, c ≠ "" ∧ c ≠ ".") l = filter (λ c, c ≠ ".") (filter (λ c, c ≠ "") l).
Proof.
  induction l as [|c l IH]; [done|]. rewrite !filter_cons.
  destruct (decide (c ≠ "")) as [H1|H1].
  - rewrite filter_cons. destruct (decide (c ≠ ".")) as [H2|H2].
    + by rewrite decide_True, IH.
    + by rewrite decide_False, IH by naive_solver.
  - by rewrite decide_False, IH by naive_solver.
Qed.

(** After [open(path, 'w')] has written, the path leads to the text. *)
Lemma write_file_holds fs path text fs1 :
  write_file fs path text = (Ok tt, fs1) → holds fs1 path text.
Proof.
  intros (dir & c & Hnul & Hw & Hd & Hl & Hdot & Hup & Ht & ->)%write_file_ok.
  unfold holds, os_stat, Path, origin. cbn [parts anchored cwd].
  rewrite existsb_filter by (by rewrite <- has_nul_split).
  rewrite filter_parts. apply last_Some in Hl as [cs Hcs].
  rewrite Hcs, removelast_last in Hw. rewrite Hcs, filter_app, walk_app.
  rewrite (walk_insert_file _ _ _ _ _ _ Ht (walk_drop_dots _ _ _ _ Hw)).
  cbn [mbind Result_bind]. rewrite filter_cons, decide_True by done.
  rewrite filter_nil. cbn [walk]. unfold enter. cbn [nodes].
  rewrite lookup_insert_ne by (intros Heq; apply (f_equal length) in Heq;
    rewrite length_app in Heq; cbn in Heq; lia).
  rewrite Hd, !decide_False by done. cbn [mbind Result_bind].
  by rewrite lookup_insert_eq.
Qed.


(** A path of names, written where the directories are and no directory
    is in its place. *)
Lemma write_file_names fs path text :
  Forall entry_name (split "/" path) →
  (∀ k, (k < length (split "/" path))%nat →
        nodes fs !! (cwd fs ++ take k (split "/" path)) = Some Directory) →
  nodes fs !! (cwd fs ++ split "/" path) ≠ Some Directory →
  write_file fs path text
  = (Ok tt, {| nodes := <[cwd fs ++ split "/" path := RegularFile text]> (nodes fs);
               cwd := cwd fs |}).
Proof.
  intros Hn Hd Ht. unfold write_file.
  rewrite has_nul_split, (names_no_nul _ Hn).
  destruct (split_snoc path) as (ps & c & Hs).
  assert (path ≠ "") as Hne.
  { intros ->. apply Forall_cons in Hn as [(? & _) _]. done. }
  rewrite decide_False by done. cbn zeta.
  assert (String.prefix "/" path = false) as ->.
  { destruct (String.prefix "/" path) eqn:Hp; [|done].
    apply prefix_slash_head in Hp. destruct (split "/" path) as [|p l]; [done|].
    injection Hp as ->. apply Forall_cons in Hn as [(? & _) _]. done. }
  rewrite (filter_all (λ c, c ≠ "")) by (eapply Forall_impl; [exact Hn|by intros ? (? & _)]).
  rewrite Hs in Hn, Hd, Ht |- *. rewrite removelast_last, !last_snoc.
  apply Forall_app in Hn as [Hps Hc]. apply Forall_cons in Hc as [Hc _].
  rewrite (walk_names _ _ _ Hps).
  2:{ intros k Hk. specialize (Hd k). rewrite length_app, take_app_le in Hd by lia.
      apply Hd. lia. }
  specialize (Hd (length ps)). rewrite length_app, take_app_le, firstn_all in Hd by lia.
  rewrite Hd by (cbn; lia). destruct Hc as (Hc1 & Hc2 & Hc3 & _).
  rewrite decide_False by naive_solver. rewrite decide_False by congruence.
  rewrite <- app_assoc. by destruct (nodes fs !! (cwd fs ++ ps ++ [c])) as [[|t]|].
Qed.

(** The directory that [save] makes for a path of names. *)
Lemma dirname_names (path : string) :
  Forall entry_name (split "/" path) →
  Path (join "/" (removelast (split "/" path)))
  = {| anchored := false; parts := removelast (split "/" path) |}.
Proof.
  intros Hn. destruct (split_snoc path) as (ps & c & Hs).
  destruct (decide (ps = [])) as [->|Hne].
  { rewrite Hs. done. }
  unfold Path. rewrite split_dirname by (by rewrite Hs, removelast_last).
  rewrite Hs in Hn |- *. rewrite removelast_last in *.
  apply Forall_app in Hn as [Hps _]. f_equal.
  - destruct (String.prefix "/" (join "/" ps)) eqn:Hp; [|done].
    apply prefix_slash_head in Hp.
    pose proof (split_dirname path) as Hd. rewrite Hs, removelast_last in Hd.
    rewrite Hd in Hp by done. destruct ps as [|p l]; [done|].
    injection Hp as ->. apply Forall_cons in Hps as [(? & _) _]. done.
  - apply filter_all. eapply Forall_impl; [exact Hps|]. by intros ? (? & ? & _).
Qed.


Lemma walk_names_result fs ps : ∀ base l,
  Forall entry_name ps → walk fs base ps = Ok l → l = base ++ ps.
Proof.
  induction ps as [|c ps IH]; intros base l Hn; cbn [walk].
  { intros [= <-]. by rewrite app_nil_r. }
  apply Forall_cons in Hn as [Hc Hn]. unfold enter.
  destruct (nodes fs !! base) as [[|t]|]; [|done|done].
  destruct Hc as (_ & Hdot & Hup & _). rewrite !decide_False by done.
  cbn [mbind Result_bind]. intros ->%IH; [|done]. by rewrite <- app_assoc.
Qed.

Lemma path_names (path : string) :
  Forall entry_name (split "/" path) →
  Path path = {| anchored := false; parts := split "/" path |}.
Proof.
  intros Hn. unfold Path. f_equal.
  - destruct (String.prefix "/" path) eqn:Hp; [|done].
    apply prefix_slash_head in Hp. destruct (split "/" path) as [|p l]; [done|].
    injection Hp as ->. apply Forall_cons in Hn as [(? & _) _]. done.
  - apply filter_all. eapply Forall_impl; [exact Hn|]. by intros ? (? & ? & _).
Qed.

Lemma above_spec fs path (P : list string → Prop) :
  Forall P (above fs path)
  ↔ ∀ k, (k < length (split "/" path))%nat → P (cwd fs ++ take k (split "/" path)).
Proof.
  unfold above. rewrite Forall_fmap, Forall_seq. split.
  - intros H k Hk. apply (H k). lia.
  - intros H k Hk. apply H. lia.
Qed.

Section SaveMore.
Variable drawn : nat → string.

(** X6.  Saving under a path of names, relative to a working directory
    that exists, with no regular file in place of a directory of the
    path and nothing at the path itself, succeeds: afterwards the path
    leads to the game text, every directory of the path is there, the
    working directory is the same, and every node that existed, or lies
    off the path, is as before. *)
Theorem save_free_round_trip fuel text path fs :
  Forall entry_name (split "/" path) →
  nodes fs !! cwd fs = Some Directory →
  Forall (no_file_at fs) (above fs path) →
  nodes fs !! (cwd fs ++ split "/" path) = None →
  let r := save drawn fuel text path fs in
  r.1 = Ok (Some tt)
  ∧ cwd r.2 = cwd fs
  ∧ nodes r.2 !! (cwd fs ++ split "/" path) = Some (RegularFile text)
  ∧ holds r.2 path text
  ∧ Forall (λ l, nodes r.2 !! l = Some Directory) (above fs path)
  ∧ (∀ l, l ∉ above fs path → l ≠ cwd fs ++ split "/" path →
          nodes r.2 !! l = nodes fs !! l)
  ∧ (∀ l n, nodes fs !! l = Some n → nodes r.2 !! l = Some n).
Proof.
  intros Hn Hcwd Hway Hfree r.
  rewrite above_spec in Hway.
  destruct (split_snoc path) as (ps & c & Hs).
  assert (is_file fs path = false) as Hfile.
  { unfold is_file, path_is_file, os_stat. rewrite (path_names _ Hn).
    cbn [parts anchored origin]. rewrite (names_no_nul _ Hn).
    destruct (walk fs (cwd fs) (split "/" path)) as [l|e] eqn:Hw; [|done].
    apply walk_names_result in Hw as ->; [|done]. cbn. by rewrite Hfree. }
  pose proof Hn as Hn'. rewrite Hs in Hn'. apply Forall_app in Hn' as [Hps _].
  destruct (mkdir_from_names false ps fs Hps Hcwd)
    as (fs' & Hmk & Hcwd' & Hdirs & Hframe & Hkeep).
  { intros k Hk. specialize (Hway k). rewrite Hs, length_app, take_app_le in Hway by lia.
    apply Hway. cbn. lia. }
  cbn zeta in Hdirs, Hframe.
  assert (nodes fs' !! (cwd fs ++ split "/" path) = None) as Hfree'.
  { rewrite Hframe; [done|]. intros k Hk Heq. apply app_inv_head in Heq.
    apply (f_equal length) in Heq. rewrite Hs, length_app, length_take in Heq.
    cbn in Heq. lia. }
  assert (write_file fs' path text
          = (Ok tt, {| nodes := <[cwd fs ++ split "/" path := RegularFile text]> (nodes fs');
                       cwd := cwd fs' |})) as Hwr.
  { rewrite <- Hcwd'. apply write_file_names; [done| |].
    - intros k Hk. rewrite Hcwd'. rewrite Hs in Hk |- *. rewrite length_app in Hk.
      cbn in Hk. rewrite take_app_le by lia. apply Hdirs. lia.
    - rewrite Hcwd', Hfree'. done. }
  assert (r = (Ok (Some tt),
               {| nodes := <[cwd fs ++ split "/" path := RegularFile text]> (nodes fs');
                  cwd := cwd fs' |})) as ->.
  { subst r. unfold save. rewrite Hfile. unfold mkdir_parents.
    rewrite (dirname_names _ Hn). cbn [anchored parts].
    rewrite Hs, removelast_last, Hmk. rewrite <- Hs. by rewrite Hwr. }
  cbn [fst snd nodes cwd].
  split; [done|]. split; [done|]. split; [apply lookup_insert_eq|].
  split; [eapply write_file_holds, Hwr|].
  split; [|split].
  - apply above_spec. intros k Hk.
    rewrite lookup_insert_ne.
    + rewrite Hs in Hk |- *. rewrite length_app in Hk. cbn in Hk.
      rewrite take_app_le by lia. apply Hdirs. lia.
    + intros Heq. apply app_inv_head in Heq. apply (f_equal length) in Heq.
      rewrite length_take in Heq. lia.
  - intros l Hl Hne. rewrite lookup_insert_ne by done. apply Hframe.
    intros k Hk ->. apply Hl. unfold above. apply list_elem_of_fmap.
    exists k. rewrite Hs, length_app, take_app_le by lia. split; [done|].
    apply elem_of_seq. cbn. lia.
  - intros l n Hl. rewrite lookup_insert_ne by congruence. by apply Hkeep.
Qed.


End SaveMore.

Lemma save_free_round_trip_witness :
  let r := save (λ _, "3fa9c1") 8 "1. d4 d5 *" "games/2021/g.pgn" Worlds.no_game in
  r.1 = Ok (Some tt)
  ∧ nodes r.2 !! ["srv"; "games"; "2021"; "g.pgn"] = Some (RegularFile "1. d4 d5 *")
  ∧ nodes r.2 !! ["srv"; "games"; "2021"] = Some Directory.
Proof.
  intros r.
  destruct (save_free_round_trip (λ _, "3fa9c1") 8 "1. d4 d5 *" "games/2021/g.pgn"
              Worlds.no_game) as (Hok & _ & Hfile & _ & Hdirs & _).
  - repeat constructor; vm_compute; congruence.
  - vm_compute. reflexivity.
  - repeat constructor.
  - vm_compute. reflexivity.
  - split; [exact Hok|]. split; [exact Hfile|].
    apply (proj1 (above_spec _ _ _) Hdirs 2%nat). vm_compute. lia.
Defined.


(** A path of names that leads to a directory is not opened for writing. *)
Lemma write_file_directory fs path text :
  Forall entry_name (split "/" path) →
  (∀ k, (k < length (split "/" path))%nat →
        nodes fs !! (cwd fs ++ take k (split "/" path)) = Some Directory) →
  nodes fs !! (cwd fs ++ split "/" path) = Some Directory →
  write_file fs path text = (Raise IsADirectoryError, fs).
Proof.
  intros Hn Hd Ht. unfold write_file.
  rewrite has_nul_split, (names_no_nul _ Hn).
  destruct (split_snoc path) as (ps & c & Hs).
  assert (path ≠ "") as Hne.
  { intros ->. apply Forall_cons in Hn as [(? & _) _]. done. }
  rewrite decide_False by done. cbn zeta.
  assert (String.prefix "/" path = false) as ->.
  { pose proof (path_names _ Hn) as Hp. unfold Path in Hp. by injection Hp as -> _. }
  rewrite (filter_all (λ c, c ≠ "")) by (eapply Forall_impl; [exact Hn|by intros ? (? & _)]).
  rewrite Hs in Hn, Hd, Ht |- *. rewrite removelast_last, !last_snoc.
  apply Forall_app in Hn as [Hps Hc]. apply Forall_cons in Hc as [Hc _].
  rewrite (walk_names _ _ _ Hps).
  2:{ intros k Hk. specialize (Hd k). rewrite length_app, take_app_le in Hd by lia.
      apply Hd. lia. }
  specialize (Hd (length ps)). rewrite length_app, take_app_le, firstn_all in Hd by lia.
  rewrite Hd by (cbn; lia). destruct Hc as (Hc1 & Hc2 & Hc3 & _).
  rewrite decide_False by naive_solver. rewrite decide_False by congruence.
  by rewrite <- app_assoc, Ht.
Qed.

Section SaveFails.
Variable drawn : nat → string.

(** X16.  Saving under a path of names that leads, through directories,
    to a directory raises IsADirectoryError and changes nothing: the
    collision with a directory is not renamed away. *)
Theorem save_onto_directory_raises fuel text path fs :
  Forall entry_name (split "/" path) →
  Forall (λ l, nodes fs !! l = Some Directory) (above fs path) →
  nodes fs !! (cwd fs ++ split "/" path) = Some Directory →
  let r := save drawn fuel text path fs in
  r.1 = Raise IsADirectoryError
  ∧ cwd r.2 = cwd fs
  ∧ ∀ l, nodes r.2 !! l = nodes fs !! l.
Proof.
  intros Hn Hway Ht r. rewrite above_spec in Hway.
  destruct (split_snoc path) as (ps & c & Hs).
  assert (nodes fs !! cwd fs = Some Directory) as Hcwd.
  { specialize (Hway 0%nat). rewrite Hs, length_app, app_nil_r in Hway.
    apply Hway. cbn. lia. }
  assert (is_file fs path = false) as Hfile.
  { unfold is_file, path_is_file. rewrite (path_names _ Hn), os_stat_names by done.
    by rewrite Ht. }
  pose proof Hn as Hn'. rewrite Hs in Hn'. apply Forall_app in Hn' as [Hps _].
  assert (∀ k, (k ≤ length ps)%nat → nodes fs !! (cwd fs ++ take k ps) = Some Directory)
    as Hdirs.
  { intros k Hk. specialize (Hway k). rewrite Hs, length_app, take_app_le in Hway by lia.
    apply Hway. cbn. lia. }
  destruct (mkdir_from_names false ps fs Hps Hcwd)
    as (fs' & Hmk & Hcwd' & _ & Hframe & Hkeep).
  { intros k Hk. unfold no_file_at. by rewrite (Hdirs k Hk). }
  cbn zeta in Hframe.
  assert (∀ l, nodes fs' !! l = nodes fs !! l) as Hsame.
  { intros l. destruct (nodes fs !! l) as [n|] eqn:Hl; [by apply Hkeep|].
    rewrite Hframe; [done|]. intros k Hk ->. by rewrite (Hdirs k Hk) in Hl. }
  assert (r = (Raise IsADirectoryError, fs')) as ->.
  { subst r. unfold save. rewrite Hfile. unfold mkdir_parents.
    rewrite (dirname_names _ Hn). cbn [anchored parts].
    rewrite Hs, removelast_last, Hmk.
    rewrite write_file_directory; [done|done| |].
    - intros k Hk. rewrite Hcwd', Hsame. by apply Hway.
    - by rewrite Hcwd', Hsame. }
  done.
Qed.

End SaveFails.

Lemma save_onto_directory_raises_witness :
  (save (λ _, "3fa9c1") 8 "1. d4 d5 *" "games" Worlds.one_game).1
  = Raise IsADirectoryError.
Proof.
  apply (save_onto_directory_raises (λ _, "3fa9c1") 8 "1. d4 d5 *" "games"
           Worlds.one_game).
  - repeat constructor; vm_compute; congruence.
  - repeat constructor.
  - vm_compute. reflexivity.
Defined.

(** ** More on the match runner *)

Lemma bind_inv {A B} (m : M A) (f : A → M B) r log :
  m ≫= f = (Ok r, log) →
  ∃ a l1, m = (Ok a, l1) ∧ (f a).1 = Ok r ∧ log = l1 ++ (f a).2.
Proof.
  destruct m as [[a|e] l1]; [|done].
  unfold mbind, M_bind. destruct (f a) as [r' l2] eqn:Hf.
  intros [= -> <-]. exists a, l1. by rewrite Hf.
Qed.

Lemma lift_inv {A} (x : Result A) a log : lift x = (Ok a, log) → x = Ok a ∧ log = [].
Proof. unfold lift. by intros [= -> <-]. Qed.

Section MatchMore.
Context {Move : Type} `{!Rules Move}.
Variables (white black : Player Move) (round : option Z) (today : string).

Lemma stopped_snoc board m :
  py_not (Some m) || is_game_over (board ++ [m]) = true → stopped (board ++ [m]).
Proof.
  intros [Hn|Hg]%orb_true_iff; [right|by left].
  exists m. split; [apply last_snoc|]. cbn in Hn. by apply negb_true_iff.
Qed.

(** One pass through the loop adds one or two moves; it breaks only on a
    board that makes the match stop. *)
Lemma pit_round_inv board r log :
  pit_round white black board = (Ok r, log) →
  match r with
  | Break board' =>
      stopped board'
      ∧ ∃ ms, board' = board ++ ms ∧ (1 ≤ length ms ≤ 2)%nat
  | Continue board' => ∃ w b, board' = board ++ [w; b]
  end.
Proof.
  unfold pit_round. intros (w & l1 & Hw & Hrest & _)%bind_inv.
  destruct w as [w|]; [|done]. rewrite bind_lift in Hrest. cbn [board_push] in Hrest.
  destruct (py_not (Some w) || is_game_over (board ++ [w])) eqn:Hstop.
  { cbn in Hrest. injection Hrest as <-. split; [by apply stopped_snoc|].
    exists [w]. split; [done|]. cbn. lia. }
  apply (f_equal (λ x, (x, (
    b ← move black (board_fen (board ++ [w]));
    board0 ← lift (board_push (board ++ [w]) b);
    (if py_not b || is_game_over board0 then mret (Break board0)
     else mret (Continue board0))).2))) in Hrest.
  rewrite <- surjective_pairing in Hrest.
  apply bind_inv in Hrest as (b & l2 & Hb & Hrest & _).
  destruct b as [b|]; [|done]. rewrite bind_lift in Hrest. cbn [board_push] in Hrest.
  rewrite <- app_assoc in Hrest. cbn [app] in Hrest.
  destruct (py_not (Some b) || is_game_over (board ++ [w; b])) eqn:Hstop'.
  - cbn in Hrest. injection Hrest as <-. split.
    + replace (board ++ [w; b]) with ((board ++ [w]) ++ [b])
        by (by rewrite <- app_assoc).
      apply stopped_snoc. by rewrite <- app_assoc.
    + exists [w; b]. split; [done|]. cbn. lia.
  - cbn in Hrest. injection Hrest as <-. by exists w, b.
Qed.

Lemma pit_loop_inv fuel : ∀ board board' log,
  pit_loop white black fuel board = (Ok (Some board'), log) →
  stopped board'
  ∧ ∃ ms, board' = board ++ ms ∧ (length ms ≤ 2 * fuel)%nat.
Proof.
  induction fuel as [|fuel IH]; intros board board' log; cbn [pit_loop];
    destruct (is_game_over board) eqn:Hgo.
  - intros [= <- <-]. split; [by left|]. exists []. by rewrite app_nil_r.
  - done.
  - intros [= <- <-]. split; [by left|]. exists []. rewrite app_nil_r.
    split; [done|]. cbn. lia.
  - intros (r & l1 & Hr & Hrest & _)%bind_inv. apply pit_round_inv in Hr.
    destruct r as [b1|b1].
    + cbn in Hrest. injection Hrest as <-. destruct Hr as (Hs & ms & -> & Hlen).
      split; [done|]. exists ms. split; [done|]. lia.
    + destruct Hr as (w & b & ->).
      destruct (pit_loop white black fuel (board ++ [w; b])) as [r2 l2] eqn:Hl.
      cbn in Hrest. subst r2. apply IH in Hl as (Hs & ms & -> & Hlen).
      split; [done|]. exists ([w; b] ++ ms). rewrite app_assoc.
      split; [done|]. rewrite length_app. cbn. lia.
Qed.

(** X8.  A match that returns a game stopped for a reason: its last
    position is game over, or its last move is a null move; and a match
    of [fuel] passes through the loop records at most [2 * fuel]
    half-moves. *)
Theorem pit_stops fuel g log :
  pit white black round today fuel = (Ok (Some g), log) →
  stopped (mainline g) ∧ (length (mainline g) ≤ 2 * fuel)%nat.
Proof.
  unfold pit. intros (b & l1 & Hb & Hrest & _)%bind_inv.
  destruct b as [b|]; [|done]. cbn in Hrest. injection Hrest as <-.
  apply pit_loop_inv in Hb as (Hs & ms & -> & Hlen). cbn. done.
Qed.

End MatchMore.

(** ** More on the decision *)

Section DecisionMore.
Context {F : Type} `{!PyFloat F} {Move : Type} `{!Rules Move} `{!Engines F}.

Lemma call_maia_loop_cases fens d :
  (∃ e log, call_maia_loop fens d = (Raise e, log)
            ∧ (e = IndexError ∨ e = ValueError))
  ∨ (Forall parses fens
     ∧ call_maia_loop fens d = (Ok (distributions_of fens d), map MaiaLaunch fens)).
Proof.
  revert d. induction fens as [|fen fens IH]; intros d.
  { right. by split. }
  cbn [call_maia_loop]. rewrite get_maia_distribution_run.
  destruct (read_analysis (lc0_analysis fen) []) as [infos|e] eqn:Hr.
  - assert (parses fen) as Hp by (unfold parses; by rewrite Hr).
    assert (maia_distribution fen = sorted_desc infos) as Hd
      by (unfold maia_distribution; by rewrite Hr).
    erewrite bind_ok; [|reflexivity]. cbn [fst snd]. rewrite <- Hd.
    destruct (IH (<[fen := maia_distribution fen]> d))
      as [(e & log & -> & He)|(Hps & ->)].
    + left. by eexists _, _.
    + right. split; [by constructor|done].
  - left. exists e, [MaiaLaunch fen]. split; [done|].
    by apply read_analysis_errors in Hr.
Qed.

Lemma gather_cases fens :
  (∃ e log, gather fens = (Raise e, log) ∧ (e = IndexError ∨ e = ValueError))
  ∨ (Forall parses fens
     ∧ gather fens
       = (Ok (map (λ fen, (fen, maia_distribution fen)) fens), map MaiaLaunch fens)).
Proof.
  induction fens as [|fen fens IH].
  { right. by split. }
  cbn [gather]. unfold get_maia_distribution_async.
  rewrite get_maia_distribution_run.
  destruct (read_analysis (lc0_analysis fen) []) as [infos|e] eqn:Hr.
  - assert (parses fen) as Hp by (unfold parses; by rewrite Hr).
    assert (maia_distribution fen = sorted_desc infos) as Hd
      by (unfold maia_distribution; by rewrite Hr).
    erewrite bind_ok; [|reflexivity]. cbn [fst snd]. rewrite <- Hd.
    destruct IH as [(e & log & -> & He)|(Hps & ->)].
    + left. by eexists _, _.
    + right. split; [by constructor|]. cbn. by rewrite app_nil_r.
  - left. exists e, [MaiaLaunch fen]. split; [done|].
    by apply read_analysis_errors in Hr.
Qed.

Lemma call_maia_cases (parallel : bool) (S : gset Fen) :
  (∃ e log,
     (if parallel then call_maia_parallel (elements S) else call_maia (elements S))
     = (Raise e, log) ∧ (e = IndexError ∨ e = ValueError))
  ∨ (Forall parses (elements S)
     ∧ (if parallel then call_maia_parallel (elements S) else call_maia (elements S))
       = (Ok (distributions_of (elements S) ∅), map MaiaLaunch (elements S))).
Proof.
  destruct parallel.
  - destruct (gather_cases (elements S)) as [(e & log & Hg & He)|(Hp & Hg)].
    + left. exists e, log. split; [|done].
      unfold call_maia_parallel. by rewrite list_to_set_elements_L, Hg.
    + right. split; [done|]. exact (call_maia_set true S Hp).
  - apply call_maia_loop_cases.
Qed.

Lemma add_followups_raise fen (dist : Distribution F) (S0 : gset Fen) e :
  add_followups fen dist S0 = Raise e → e = ValueError.
Proof.
  revert S0. induction dist as [|[mv pct] dist IH]; intros S0; cbn; [done|].
  unfold move_from_uci. destruct (from_uci mv); cbn; [apply IH|by intros [= <-]].
Qed.

Lemma add_followups_ok fen (dist : Distribution F) (S0 S1 : gset Fen) :
  add_followups fen dist S0 = Ok S1 → Forall decodes dist.
Proof.
  revert S0. induction dist as [|[mv pct] dist IH]; intros S0; cbn; [constructor|].
  unfold move_from_uci. destruct (from_uci mv) eqn:Hm; cbn; [|done].
  intros Hok. constructor; [|by eapply IH].
  unfold decodes. cbn. by rewrite Hm.
Qed.

Lemma gather_stockfish_fens_raise (items : list (Fen * Distribution F)) S0 e :
  gather_stockfish_fens items S0 = Raise e → e = ValueError.
Proof.
  revert S0. induction items as [|[fen dist] items IH]; intros S0; cbn; [done|].
  destruct (add_followups fen dist (S0 ∪ {[fen]})) as [S'|e'] eqn:Ha; cbn.
  - apply IH.
  - intros [= <-]. by eapply add_followups_raise.
Qed.

Lemma gather_stockfish_fens_ok (items : list (Fen * Distribution F)) S0 S1 :
  gather_stockfish_fens items S0 = Ok S1 → Forall (λ it, Forall decodes it.2) items.
Proof.
  revert S0. induction items as [|[fen dist] items IH]; intros S0; cbn; [constructor|].
  destruct (add_followups fen dist (S0 ∪ {[fen]})) as [S'|e'] eqn:Ha; cbn; [|done].
  intros Hok. constructor; [by eapply add_followups_ok|by eapply IH].
Qed.

(** The dicts built by a decision supply every candidate. *)
Lemma caches_complete fen moves (S1 : gset Fen) :
  let S : gset Fen := list_to_set (map (push fen) moves) in
  let D := distributions_of (elements S) ∅ in
  gather_stockfish_fens (map_to_list D) S = Ok S1 →
  Forall (supplied fen D (evaluations_of (elements S1) ∅)) moves.
Proof.
  intros S D Hg.
  assert (∀ f, f ∈ S → D !! f = Some (maia_distribution f)) as HD.
  { intros f Hf. unfold D. rewrite distributions_of_lookup.
    rewrite decide_True; [done|]. by apply elem_of_elements. }
  destruct (gather_stockfish_fens_spec (map_to_list D) S
              (gather_stockfish_fens_ok _ _ _ Hg)) as (S1' & HS1 & Hsub & Hall).
  assert (S1' = S1) as -> by congruence.
  assert (∀ f, f ∈ S1 → evaluations_of (elements S1) ∅ !! f
                        = Some (scaled (stockfish_get_evaluation f))) as HE.
  { intros f Hf1. rewrite evaluations_of_lookup.
    rewrite decide_True; [done|]. by apply elem_of_elements. }
  apply Forall_forall. intros m Hin.
  assert (push fen m ∈ S) as Hf.
  { apply elem_of_list_to_set, list_elem_of_fmap. by exists m. }
  pose proof (proj2 (elem_of_map_to_list D _ _) (HD _ Hf)) as Hitem.
  split; [apply HE; set_solver|]. split; [by apply HD|].
  pose proof (gather_stockfish_fens_ok _ _ _ Hg) as Hdec.
  rewrite Forall_forall in Hdec. specialize (Hdec _ Hitem). cbn in Hdec.
  apply Forall_forall. intros x Hx. unfold cached.
  rewrite Forall_forall in Hdec. specialize (Hdec x Hx). unfold decodes in Hdec.
  destruct (from_uci x.1) as [m'|] eqn:Hm'; [|done].
  apply HE. by eapply (Hall (push fen m) (maia_distribution (push fen m))).
Qed.

(** A decision past the root either raises IndexError or ValueError
    while it reads lc0 or decodes a move, or reaches the last loop with
    both dicts filled. *)
Lemma decision_cases parallel fen m0 ms :
  legal_moves fen = m0 :: ms →
  mate_for (turn fen) fen = false →
  let S : gset Fen := list_to_set (map (push fen) (m0 :: ms)) in
  let D := distributions_of (elements S) ∅ in
  (∃ e log, get_antimaia_move parallel fen = (Raise e, log)
            ∧ (e = IndexError ∨ e = ValueError))
  ∨ (∃ S1, Forall parses (elements S)
       ∧ gather_stockfish_fens (map_to_list D) S = Ok S1
       ∧ get_antimaia_move parallel fen
         = (choose fen (turn fen) D (evaluations_of (elements S1) ∅)
              (m0 :: ms) m0 (initial_score (turn fen)),
            StockfishEvaluation fen
            :: map MaiaLaunch (elements S)
            ++ map StockfishEvaluation (elements S1))).
Proof.
  intros Hm Hmate S D. unfold get_antimaia_move, mate_for in *.
  rewrite Hm, bind_lift. cbn [py_index lookup list_lookup].
  rewrite (bind_ok _ _ _ _ (get_stockfish_eval_run fen)).
  destruct (scaled (stockfish_get_evaluation fen)) as [val mate].
  rewrite Hmate, first_level_sets. fold S.
  destruct (call_maia_cases parallel S) as [(e & log & -> & He)|(Hp & ->)].
  { left. by eexists _, _. }
  erewrite bind_ok; [|reflexivity]. fold D. cbn [fst snd]. rewrite bind_lift.
  destruct (gather_stockfish_fens (map_to_list D) S) as [S1|e] eqn:Hg.
  - right. exists S1. split; [done|]. split; [done|].
    rewrite (bind_ok _ _ _ _ (eval_all_run _ _)). cbn [fst snd lift].
    by rewrite app_nil_r.
  - left. apply gather_stockfish_fens_raise in Hg as ->.
    eexists _, _. split; [reflexivity|by right].
Qed.

Lemma choose_step_mate start_fen white D E m rest bm bs :
  E !! push start_fen m = Some (scaled (stockfish_get_evaluation (push start_fen m))) →
  mate_for white (push start_fen m) = true →
  choose start_fen white D E (m :: rest) bm bs = Ok m.
Proof.
  intros HE Hmate. cbn [choose]. unfold py_getitem. rewrite HE.
  unfold mate_for in Hmate.
  destruct (scaled (stockfish_get_evaluation (push start_fen m))) as [val mate].
  cbn. by rewrite Hmate.
Qed.

Lemma choose_step_score start_fen white D E m rest bm bs :
  supplied start_fen D E m →
  mate_for white (push start_fen m) = false →
  choose start_fen white D E (m :: rest) bm bs
  = choose start_fen white D E rest
      (keep_best white start_fen [m] (bm, bs)).1
      (keep_best white start_fen [m] (bm, bs)).2.
Proof.
  intros (HE & HD & Hc) Hmate. cbn [choose]. unfold py_getitem. rewrite HE.
  unfold mate_for in Hmate.
  destruct (scaled (stockfish_get_evaluation (push start_fen m))) as [val mate].
  cbn. rewrite Hmate, HD. cbn. rewrite (expected_score_run _ _ _ Hc). cbn.
  fold (expected_value (push start_fen m)). unfold better.
  destruct white; cbn.
  - by destruct (flt bs (expected_value (push start_fen m))).
  - by destruct (flt (expected_value (push start_fen m)) bs).
Qed.

(** With both dicts filled the last loop returns a move: one of the
    candidates, or the move it started from. *)
Lemma choose_returns start_fen white D E moves : ∀ bm bs,
  Forall (supplied start_fen D E) moves →
  ∃ m, choose start_fen white D E moves bm bs = Ok m ∧ (m ∈ moves ∨ m = bm).
Proof.
  induction moves as [|m moves IH]; intros bm bs Hs.
  { exists bm. by split; [|right]. }
  apply Forall_cons in Hs as [Hm Hs].
  destruct (mate_for white (push start_fen m)) eqn:Hmate.
  - exists m. split; [|left; apply list_elem_of_here].
    apply choose_step_mate; [apply Hm|done].
  - rewrite (choose_step_score _ _ _ _ _ _ _ _ Hm Hmate).
    destruct (IH (keep_best white start_fen [m] (bm, bs)).1
                 (keep_best white start_fen [m] (bm, bs)).2 Hs) as (r & -> & Hr).
    exists r. split; [done|].
    destruct Hr as [Hr| ->]; [left; by apply list_elem_of_further|].
    cbn. destruct (better white _ bs); cbn; [left; apply list_elem_of_here|by right].
Qed.

(** The first candidate whose position is a mate for the side to move
    is returned, whatever the scores of the candidates before it. *)
Lemma choose_first_mate start_fen white D E pre m rest : ∀ bm bs,
  Forall (supplied start_fen D E) (pre ++ m :: rest) →
  Forall (λ m', mate_for white (push start_fen m') = false) pre →
  mate_for white (push start_fen m) = true →
  choose start_fen white D E (pre ++ m :: rest) bm bs = Ok m.
Proof.
  induction pre as [|p pre IH]; intros bm bs Hs Hpre Hmate.
  - apply Forall_cons in Hs as [Hm _]. apply choose_step_mate; [apply Hm|done].
  - cbn [app] in *. apply Forall_cons in Hs as [Hp Hs].
    apply Forall_cons in Hpre as [Hpm Hpre].
    rewrite (choose_step_score _ _ _ _ _ _ _ _ Hp Hpm). by apply IH.
Qed.

Lemma first_level_readable fen moves :
  Forall readable (map (push fen) moves) →
  Forall parses (map (push fen) moves).
Proof. intros Hr. eapply Forall_impl; [exact Hr|]. by intros f [? _]. Qed.

(** With streams that parse and moves that decode a decision reaches
    the last loop. *)
Lemma decision_readable parallel fen m0 ms :
  legal_moves fen = m0 :: ms →
  mate_for (turn fen) fen = false →
  Forall readable (map (push fen) (m0 :: ms)) →
  let S : gset Fen := list_to_set (map (push fen) (m0 :: ms)) in
  let D := distributions_of (elements S) ∅ in
  ∃ S1, gather_stockfish_fens (map_to_list D) S = Ok S1
    ∧ get_antimaia_move parallel fen
      = (choose fen (turn fen) D (evaluations_of (elements S1) ∅)
           (m0 :: ms) m0 (initial_score (turn fen)),
         StockfishEvaluation fen
         :: map MaiaLaunch (elements S)
         ++ map StockfishEvaluation (elements S1)).
Proof.
  intros Hm Hmate Hr S D.
  destruct (decision_cases parallel fen m0 ms Hm Hmate)
    as [(e & log & Hrun & He)|(S1 & _ & Hg & Hrun)]; [|by exists S1].
  exfalso.
  pose proof (decision_unfold parallel fen m0 ms Hm Hmate
                (first_level_readable _ _ Hr)) as Hu. cbn zeta in Hu.
  fold S D in Hu. rewrite Hrun in Hu.
  destruct (gather_stockfish_fens_spec (map_to_list D) S) as (S1 & HS1 & _).
  { apply Forall_forall. intros [f dist] Hin. cbn.
    apply elem_of_map_to_list in Hin. unfold D in Hin.
    rewrite distributions_of_lookup in Hin.
    destruct (decide (f ∈ elements S)) as [Hf|]; [|by rewrite lookup_empty in Hin].
    injection Hin as <-. apply elem_of_elements, elem_of_list_to_set in Hf.
    rewrite Forall_forall in Hr. by destruct (Hr f Hf). }
  rewrite bind_lift, HS1 in Hu.
  rewrite (bind_ok _ _ _ _ (eval_all_run _ _)) in Hu. cbn [fst snd lift] in Hu.
  pose proof (caches_complete fen (m0 :: ms) S1 HS1) as Hc.
  destruct (choose_returns fen (turn fen) D (evaluations_of (elements S1) ∅)
              (m0 :: ms) m0 (initial_score (turn fen)) Hc) as (r & Hch & _).
  fold S D in Hu. rewrite Hch in Hu. done.
Qed.

(** X9.  With a legal move, no mate at the root, streams that parse and
    moves that decode, a decision raises nothing and returns one of the
    legal moves of the position, shortcut or not, in either mode. *)
Theorem decision_returns_legal_move parallel fen :
  legal_moves fen ≠ [] →
  mate_for (turn fen) fen = false →
  Forall readable (map (push fen) (legal_moves fen)) →
  ∃ m log, get_antimaia_move parallel fen = (Ok m, log) ∧ m ∈ legal_moves fen.
Proof.
  intros Hne Hmate Hr. destruct (legal_moves fen) as [|m0 ms] eqn:Hm; [done|].
  destruct (decision_readable parallel fen m0 ms Hm Hmate Hr) as (S1 & Hg & ->).
  destruct (choose_returns fen (turn fen) _ _ (m0 :: ms) m0
              (initial_score (turn fen)) (caches_complete fen (m0 :: ms) S1 Hg))
    as (r & -> & Hin).
  eexists _, _. split; [done|].
  destruct Hin as [Hin| ->]; [done|apply list_elem_of_here].
Qed.

(** X10.  When the position reached by a legal move is a mate for the
    side to move and no earlier move reaches one, that move is returned
    at once, whatever the expected values of the moves before it. *)
Theorem first_level_mate_shortcut parallel fen pre m rest :
  legal_moves fen = pre ++ m :: rest →
  mate_for (turn fen) fen = false →
  Forall readable (map (push fen) (legal_moves fen)) →
  Forall (λ m', mate_for (turn fen) (push fen m') = false) pre →
  mate_for (turn fen) (push fen m) = true →
  ∃ log, get_antimaia_move parallel fen = (Ok m, log).
Proof.
  intros Hm Hmate Hr Hpre Hmm.
  destruct (pre ++ m :: rest) as [|m0 ms] eqn:Hl; [by destruct pre|].
  rewrite Hm in Hr.
  destruct (decision_readable parallel fen m0 ms Hm Hmate Hr) as (S1 & Hg & ->).
  pose proof (caches_complete fen (m0 :: ms) S1 Hg) as Hc.
  rewrite <- Hl in *. rewrite (choose_first_mate _ _ _ _ _ _ _ _ _ Hc Hpre Hmm).
  by eexists.
Qed.

(** X11.  A decision raises only IndexError (no legal move, or an lc0
    line without ['P:']), ValueError (a percentage that is no number, or
    a move that does not decode) or TypeError (no best move from
    Stockfish): in particular the two dicts are never read at a missing
    key. *)
Theorem decision_errors parallel fen e :
  (get_antimaia_move parallel fen).1 = Raise e →
  e = IndexError ∨ e = ValueError ∨ e = TypeError.
Proof.
  destruct (legal_moves fen) as [|m0 ms] eqn:Hm.
  { unfold get_antimaia_move. rewrite Hm, bind_lift. cbn. intros [= <-]. auto. }
  destruct (mate_for (turn fen) fen) eqn:Hmate.
  - unfold get_antimaia_move, mate_for in *.
    rewrite Hm, bind_lift. cbn [py_index lookup list_lookup].
    rewrite (bind_ok _ _ _ _ (get_stockfish_eval_run fen)).
    destruct (scaled (stockfish_get_evaluation fen)) as [val mate].
    rewrite Hmate, bind_call. cbn.
    unfold best_move_from_uci, move_from_uci.
    destruct (stockfish_get_best_move fen) as [mv|]; [|intros [= <-]; auto].
    destruct (from_uci mv); [done|intros [= <-]; auto].
  - destruct (decision_cases parallel fen m0 ms Hm Hmate)
      as [(e' & log & -> & He)|(S1 & _ & Hg & ->)].
    + cbn. intros [= <-]. destruct He; auto.
    + destruct (choose_returns fen (turn fen) _ _ (m0 :: ms) m0
                  (initial_score (turn fen)) (caches_complete fen (m0 :: ms) S1 Hg))
        as (r & -> & _). done.
Qed.

Lemma evaluations_app fen (l1 l2 : list Event) :
  evaluations fen (l1 ++ l2) = (evaluations fen l1 + evaluations fen l2)%nat.
Proof. unfold evaluations. by rewrite filter_app, length_app. Qed.

Lemma evaluations_launches fen (fens : list Fen) :
  evaluations fen (map MaiaLaunch fens) = 0%nat.
Proof.
  unfold evaluations. induction fens as [|f fens IH]; [done|]. cbn [map].
  by rewrite filter_cons_False.
Qed.

Lemma evaluations_absent fen (fens : list Fen) :
  fen ∉ fens → evaluations fen (map StockfishEvaluation fens) = 0%nat.
Proof.
  unfold evaluations. induction fens as [|f fens IH]; [done|]. cbn [map].
  intros Hnin. apply not_elem_of_cons in Hnin as [Hne Hnin].
  rewrite filter_cons_False by congruence. by apply IH.
Qed.

Lemma evaluations_once fen (fens : list Fen) :
  NoDup fens → fen ∈ fens → evaluations fen (map StockfishEvaluation fens) = 1%nat.
Proof.
  unfold evaluations. induction 1 as [|f fens Hnin Hnd IH]; intros Hin.
  { by apply elem_of_nil in Hin. }
  cbn [map]. apply elem_of_cons in Hin as [->|Hin].
  - rewrite filter_cons_True by done. cbn [length].
    f_equal. by apply (evaluations_absent f fens).
  - rewrite filter_cons_False; [by apply IH|].
    intros [= ->]. done.
Qed.

(** X12.  After the evaluation of the root, a decision with streams that
    parse and moves that decode asks Stockfish exactly once for the
    position of each legal move and exactly once for each follow-up
    position of its distribution, however many moves reach it. *)
Theorem positions_evaluated_once parallel fen :
  legal_moves fen ≠ [] →
  mate_for (turn fen) fen = false →
  Forall readable (map (push fen) (legal_moves fen)) →
  ∃ r log,
    get_antimaia_move parallel fen = (r, StockfishEvaluation fen :: log)
    ∧ ∀ m, m ∈ legal_moves fen →
        evaluations (push fen m) log = 1%nat
        ∧ ∀ (x : string * F) m', x ∈ maia_distribution (push fen m) →
            from_uci x.1 = Some m' →
            evaluations (push (push fen m) m') log = 1%nat.
Proof.
  intros Hne Hmate Hr. destruct (legal_moves fen) as [|m0 ms] eqn:Hm; [done|].
  destruct (decision_readable parallel fen m0 ms Hm Hmate Hr) as (S1 & Hg & ->).
  eexists _, _. split; [reflexivity|].
  set (S := list_to_set (map (push fen) (m0 :: ms)) : gset Fen) in *.
  destruct (gather_stockfish_fens_spec _ S (gather_stockfish_fens_ok _ _ _ Hg))
    as (S1' & HS1 & Hsub & Hall).
  assert (S1' = S1) as -> by congruence.
  assert (∀ f, f ∈ S1 →
            evaluations f (map MaiaLaunch (elements S)
                           ++ map StockfishEvaluation (elements S1)) = 1%nat) as Hone.
  { intros f Hf. rewrite evaluations_app, evaluations_launches.
    apply evaluations_once; [apply NoDup_elements|by apply elem_of_elements]. }
  intros m Hin.
  assert (push fen m ∈ S) as Hf.
  { apply elem_of_list_to_set, list_elem_of_fmap. by exists m. }
  split; [apply Hone; set_solver|].
  intros x m' Hx Hm'. apply Hone.
  eapply (Hall (push fen m) (maia_distribution (push fen m))); [|done..].
  apply elem_of_map_to_list. rewrite distributions_of_lookup.
  rewrite decide_True; [done|]. by apply elem_of_elements.
Qed.

(** X13.  Past the root, with streams that parse, lc0 is launched only
    on positions reached by a legal move, never on the root or on a
    follow-up position, and Stockfish is never asked for a best move. *)
Theorem maia_only_first_level parallel fen :
  legal_moves fen ≠ [] →
  mate_for (turn fen) fen = false →
  Forall parses (map (push fen) (legal_moves fen)) →
  ∀ ev, ev ∈ (get_antimaia_move parallel fen).2 →
    match ev with
    | MaiaLaunch f => ∃ m, m ∈ legal_moves fen ∧ f = push fen m
    | StockfishBestMove _ => False
    | StockfishEvaluation _ => True
    end.
Proof.
  intros Hne Hmate Hp ev.
  destruct (decision_log parallel fen Hne Hmate Hp) as (r & fens & ->).
  cbn [snd]. intros [->|Hin]%elem_of_cons; [done|].
  apply elem_of_app in Hin as [Hin|Hin].
  - apply list_elem_of_fmap in Hin as (f & -> & Hf).
    apply elem_of_elements, elem_of_list_to_set, list_elem_of_fmap in Hf
      as (m & -> & Hm). by exists m.
  - by apply list_elem_of_fmap in Hin as (f & -> & _).
Qed.

(** X14.  With streams that parse, the concurrent mode returns what the
    sequential mode returns, the move or the exception, and launches
    lc0 as often on every position. *)
Theorem parallel_changes_nothing fen :
  Forall parses (map (push fen) (legal_moves fen)) →
  (get_antimaia_move true fen).1 = (get_antimaia_move false fen).1
  ∧ ∀ f, launches f (get_antimaia_move true fen).2
         = launches f (get_antimaia_move false fen).2.
Proof.
  intros Hp.
  enough (get_antimaia_move true fen = get_antimaia_move false fen) as ->
    by done.
  destruct (legal_moves fen) as [|m0 ms] eqn:Hm.
  { unfold get_antimaia_move. by rewrite Hm. }
  destruct (mate_for (turn fen) fen) eqn:Hmate.
  - unfold get_antimaia_move, mate_for in *.
    rewrite Hm, !bind_lift. cbn [py_index lookup list_lookup].
    rewrite !(bind_ok _ _ _ _ (get_stockfish_eval_run fen)).
    destruct (scaled (stockfish_get_evaluation fen)) as [val mate].
    by rewrite Hmate.
  - by rewrite !(decision_unfold _ fen m0 ms Hm Hmate Hp).
Qed.

End DecisionMore.

(** ** The further properties on the examples *)

Lemma parse_info_ignores_spaces_witness :
  parse_info (PyFloat0 := Example.xint_float) "e2e4  (322 ) N: 0 (P: 9000%)"
  = parse_info (PyFloat0 := Example.xint_float) "e2e4(322)N:0(P:9000%)".
Proof.
  apply (parse_info_ignores_spaces (PyFloat0 := Example.xint_float)).
  vm_compute. reflexivity.
Defined.

Lemma distribution_of_stream_witness :
  Forall (λ x : string * Example.xint, x.1 ≠ "node") [("e7e5", Example.Fin 90)].
Proof.
  apply (distribution_of_stream (PyFloat0 := Example.xint_float)
           (Engines0 := Worlds.fork_engines) "a" "a" _ [MaiaLaunch "a"]).
  vm_compute. reflexivity.
Defined.



Lemma pit_stops_witness :
  stopped (Rules0 := Worlds.opening_rules) ["e2e4"; "e7e5"].
Proof.
  apply (pit_stops (Rules0 := Worlds.opening_rules)
           (Worlds.scripted_player "white") (Worlds.scripted_player "black")
           None "2021.06.01" 3
           {| headers := headers (game_of_board (Worlds.scripted_player "white")
                                    (Worlds.scripted_player "black") None
                                    "2021.06.01" []);
              mainline := ["e2e4"; "e7e5"] |}
           [StockfishBestMove STARTING_FEN; StockfishBestMove "after e2e4"]).
  vm_compute. reflexivity.
Defined.

Lemma decision_returns_legal_move_witness :
  ∃ m log,
    get_antimaia_move (PyFloat0 := Example.xint_float)
      (Rules0 := Worlds.fork_rules) (Engines0 := Worlds.fork_engines) true "r"
    = (Ok m, log)
    ∧ m ∈ legal_moves (Rules := Worlds.fork_rules) "r".
Proof.
  apply (decision_returns_legal_move (PyFloat0 := Example.xint_float)
           (Rules0 := Worlds.fork_rules) (Engines0 := Worlds.fork_engines)).
  - vm_compute. discriminate.
  - vm_compute. reflexivity.
  - forall_by ltac:(split; [vm_compute; exact I|forall_by ltac:(vm_compute; exact I)]).
Defined.

Lemma first_level_mate_shortcut_witness :
  ∃ log,
    get_antimaia_move (PyFloat0 := Example.xint_float)
      (Rules0 := Worlds.fork_rules) (Engines0 := Worlds.mating_engines) false "r"
    = (Ok "g1f3", log).
Proof.
  apply (first_level_mate_shortcut (PyFloat0 := Example.xint_float)
           (Rules0 := Worlds.fork_rules) (Engines0 := Worlds.mating_engines)
           false "r" ["e2e4"; "d2d4"] "g1f3" ["b1c3"]).
  - vm_compute. reflexivity.
  - vm_compute. reflexivity.
  - forall_by ltac:(split; [vm_compute; exact I|forall_by ltac:(vm_compute; exact I)]).
  - forall_by ltac:(vm_compute; reflexivity).
  - vm_compute. reflexivity.
Defined.

Lemma decision_errors_witness :
  (get_antimaia_move (PyFloat0 := Example.xint_float)
     (Rules0 := Worlds.fork_rules) (Engines0 := Worlds.noisy_fork) false "r").1
  = Raise IndexError
  ∧ (IndexError = IndexError ∨ IndexError = ValueError ∨ IndexError = TypeError).
Proof.
  assert ((get_antimaia_move (PyFloat0 := Example.xint_float)
     (Rules0 := Worlds.fork_rules) (Engines0 := Worlds.noisy_fork) false "r").1
          = Raise IndexError) as Hrun by (vm_compute; reflexivity).
  split; [exact Hrun|].
  exact (decision_errors (PyFloat0 := Example.xint_float)
           (Rules0 := Worlds.fork_rules) (Engines0 := Worlds.noisy_fork)
           false "r" IndexError Hrun).
Defined.

Lemma positions_evaluated_once_witness :
  ∃ r log,
    get_antimaia_move (PyFloat0 := Example.xint_float)
      (Rules0 := Worlds.fork_rules) (Engines0 := Worlds.fork_engines) false "r"
    = (r, StockfishEvaluation "r" :: log)
    ∧ evaluations "a" log = 1%nat.
Proof.
  destruct (positions_evaluated_once (PyFloat0 := Example.xint_float)
              (Rules0 := Worlds.fork_rules) (Engines0 := Worlds.fork_engines)
              false "r") as (r & log & Hrun & Hall).
  - vm_compute. discriminate.
  - vm_compute. reflexivity.
  - forall_by ltac:(split; [vm_compute; exact I|forall_by ltac:(vm_compute; exact I)]).
  - exists r, log. split; [exact Hrun|].
    apply (Hall "e2e4"). vm_compute. left.
Defined.

Lemma maia_only_first_level_witness :
  MaiaLaunch "r"
  ∉ (get_antimaia_move (PyFloat0 := Example.xint_float)
       (Rules0 := Worlds.fork_rules) (Engines0 := Worlds.fork_engines) true "r").2.
Proof.
  intros Hin.
  destruct (maia_only_first_level (PyFloat0 := Example.xint_float)
              (Rules0 := Worlds.fork_rules) (Engines0 := Worlds.fork_engines)
              true "r" ltac:(vm_compute; discriminate)
              ltac:(vm_compute; reflexivity)
              ltac:(forall_by ltac:(vm_compute; exact I))
              (MaiaLaunch "r") Hin) as (m & Hm & Heq).
  vm_compute in Hm.
  repeat (apply elem_of_cons in Hm as [->|Hm]; [vm_compute in Heq; discriminate|]).
  by apply elem_of_nil in Hm.
Defined.

Lemma parallel_changes_nothing_witness :
  (get_antimaia_move (PyFloat0 := Example.xint_float)
     (Rules0 := Worlds.fork_rules) (Engines0 := Worlds.fork_engines) true "r").1
  = (get_antimaia_move (PyFloat0 := Example.xint_float)
       (Rules0 := Worlds.fork_rules) (Engines0 := Worlds.fork_engines) false "r").1.
Proof.
  apply (parallel_changes_nothing (PyFloat0 := Example.xint_float)
           (Rules0 := Worlds.fork_rules) (Engines0 := Worlds.fork_engines) "r").
  forall_by ltac:(vm_compute; exact I).
Defined.

(** ** A match that ends on White's move *)

Section MatchEnd.
Context {Move : Type} `{!Rules Move}.
Variables (white black : Player Move) (round : option Z) (today : string).

(** X15.  When White's move ends the game, the match stops with that
    half-move recorded last: Black is not asked, so the final round has
    one move only. *)
Theorem match_ends_on_white_move fuel board w log :
  is_game_over board = false →
  move white (board_fen board) = (Ok (Some w), log) →
  is_game_over (board ++ [w]) = true →
  pit_loop white black (S fuel) board = (Ok (Some (board ++ [w])), log).
Proof.
  intros Hgo Hw Hend. rewrite (pit_loop_round _ _ _ _ Hgo).
  rewrite (bind_ok _ _ _ _ (pit_round_white_ends _ _ _ _ _ Hw Hend)).
  cbn. by rewrite app_nil_r.
Qed.

End MatchEnd.

Lemma match_ends_on_white_move_witness :
  pit_loop (Rules0 := Worlds.short_rules) (Worlds.scripted_player "white")
    (Worlds.scripted_player "black") 1 []
  = (Ok (Some ["e2e4"]), [StockfishBestMove STARTING_FEN]).
Proof.
  apply (match_ends_on_white_move (Rules0 := Worlds.short_rules)
           (Worlds.scripted_player "white") (Worlds.scripted_player "black")
           0 [] "e2e4" [StockfishBestMove STARTING_FEN]);
    vm_compute; reflexivity.
Defined.
